(** * Provisioner command helpers of [command/ca/provisioner/provisioner.go]

    A shallow embedding of three functions of the package:

    - [removeElements], the swap-with-last removal over a Go string slice;
    - [readNebulaRoots], the loader of the Nebula root certificates;
    - [newCRUDClient], the choice between the admin API client and the
      client that edits [ca.json].

    Go slices are modelled with their backing array and the results
    [(value, error)] of the three functions as pairs. The functions of other
    packages they call are the methods of a class, so that the functions run
    on any instance of it; [newCRUDClient] records the calls it makes. *)

From Stdlib Require Import Strings.Byte.
From stdpp Require Import base list strings.


(** ** Go errors *)

(** The error values the three functions build. Errors that come out of a
    collaborator are values of the same type and are passed as they are. *)
Inductive error : Type :=
| New (msg : string)
    (** [errors.New(msg)], and [errors.Errorf] once the message is formatted *)
| Wrap (cause : error) (msg : string)
    (** [errors.Wrap(cause, msg)], [errors.Wrapf], and
        [fmt.Errorf("msg: %w", cause)]: [msg], a colon, then the cause *)
| FileError (cause : error) (path : string).
    (** [errs.FileError(cause, path)] *)

(** The error a wrapper was built from ([Unwrap] / [Cause]). *)
Definition cause_of (e : error) : option error :=
  match e with
  | New _ => None
  | Wrap c _ => Some c
  | FileError c _ => Some c
  end.

(** The result of a collaborator that returns [(value, error)] and is read
    error first: either the value or the non-nil error. *)
Inductive result (A : Type) : Type :=
| Ok (a : A)
| Fail (e : error).
Arguments Ok {A} a.
Arguments Fail {A} e.

(** [[]byte] *)
Definition bytes : Type := list byte.

(** ** Slices of strings and [removeElements] *)

Module Slices.

(** A [[]string] value: the backing array as seen from the slice's first
    element up to its capacity, and the slice's length. Two slices that share
    [arr] alias each other: a write through one is seen through the other. *)
Record slice : Type := Slice { arr : list string; len : nat }.

(** Go keeps [len <= cap] for every slice it builds. *)
Definition wf (s : slice) : Prop := len s ≤ length (arr s).

(** The elements of the slice: [list[0], ..., list[len(list)-1]]. *)
Definition view (s : slice) : list string := take (len s) (arr s).

(** A slice literal: length and capacity are the number of elements. *)
Definition of_list (l : list string) : slice := Slice l (length l).

(** [for i, elem := range list { if elem == rem { ...; break } }]: the index
    at which the body of the [if] runs, counting from [i]; [None] when the
    loop ends without entering it. *)
Fixpoint range_find (rem : string) (l : list string) (i : nat) : option nat :=
  match l with
  | [] => None
  | elem :: l' =>
      if String.eqb elem rem then Some i else range_find rem l' (S i)
  end.

(** The body of the [if]: [list[i] = list[len(list)-1]] writes into the
    backing array, [list = list[:len(list)-1]] shortens the slice. The index
    expressions are in range whenever [i] comes from [range_find] on a
    well-formed slice (lemma [range_find_in_range]), so the default of the
    read is never used. *)
Definition swap_remove (s : slice) (i : nat) : slice :=
  Slice (<[i := default "" (arr s !! (len s - 1))]> (arr s)) (len s - 1).

(** One iteration of the outer loop, for the removal entry [rem]. *)
Definition remove_one (s : slice) (rem : string) : slice :=
  match range_find rem (view s) 0 with
  | Some i => swap_remove s i
  | None => s
  end.

(** [func removeElements(list, rems []string) []string] *)
Definition removeElements (lst : slice) (rems : list string) : slice :=
  if len lst =? 0 then lst
  else fold_left remove_one rems lst.

(** The removal entries whose inner loop found a match, in the order of
    [rems]: the entries that removed an element. *)
Fixpoint matched (s : slice) (rems : list string) : list string :=
  match rems with
  | [] => []
  | rem :: rems' =>
      match range_find rem (view s) 0 with
      | Some _ => rem :: matched (remove_one s rem) rems'
      | None => matched s rems'
      end
  end.

(** Number of occurrences of [x] in [l], by exact equality. *)
Definition occurrences (x : string) (l : list string) : nat :=
  length (filter (λ y, y = x) l).

End Slices.

(** ** The Nebula root loader, [readNebulaRoots] *)

Module Nebula.

(** What the loader uses of other packages: the [IsCA] field of a parsed
    certificate ([crt.Details.IsCA]), [nebula.UnmarshalNebulaCertificateFromPEM],
    which returns the certificate and the rest of the buffer,
    the method [MarshalToPEM], and [utils.ReadFile]. *)
Class Codec (Cert : Type) : Type := {
  IsCA : Cert → bool;
  UnmarshalNebulaCertificateFromPEM : bytes → result (Cert * bytes);
  MarshalToPEM : Cert → result bytes;
  ReadFile : string → result bytes
}.

Section Loader.
Context {Cert : Type} {codec : Codec Cert}.

(** The loop [for len(b) > 0 { ... }]: [Some (Ok certs)] when the loop is
    left with the buffer empty, [Some (Fail err)] when the function returns
    from inside it, [None] when [fuel] iterations were not enough. *)
Fixpoint decodeLoop (fuel : nat) (rootFile : string) (b : bytes)
    (certs : list Cert) : option (result (list Cert)) :=
  match b with
  | [] => Some (Ok certs)
  | _ :: _ =>
      match fuel with
      | O => None
      | S fuel' =>
          match UnmarshalNebulaCertificateFromPEM b with
          | Fail err => Some (Fail (Wrap err ("error reading " +:+ rootFile)))
          | Ok (crt, b') =>
              decodeLoop fuel' rootFile b'
                (if IsCA crt then certs ++ [crt] else certs)
          end
      end
  end.

(** The loop [for i, crt := range certs { ... rootBytes[i] = b }], from
    index [i] on. *)
Fixpoint marshalLoop (certs : list Cert) (i : nat) (rootBytes : list bytes)
    : result (list bytes) :=
  match certs with
  | [] => Ok rootBytes
  | crt :: certs' =>
      match MarshalToPEM crt with
      | Fail err => Fail (Wrap err "error marshaling certificate")
      | Ok b => marshalLoop certs' (S i) (<[i := b]> rootBytes)
      end
  end.

(** [func readNebulaRoots(rootFile string) ([][]byte, error)]. The Go pair
    is kept: a nil slice is [[]], a nil error is [None]. The outer option
    is [None] only when [fuel] ran out in the first loop. *)
Definition readNebulaRoots (fuel : nat) (rootFile : string)
    : option (list bytes * option error) :=
  match ReadFile rootFile with
  | Fail err => Some ([], Some err)
  | Ok b =>
      match decodeLoop fuel rootFile b [] with
      | None => None
      | Some (Fail err) => Some ([], Some err)
      | Some (Ok certs) =>
          if length certs =? 0 then
            Some ([], Some (New ("error reading " +:+ rootFile
                                 +:+ ": no CA certificates found")))
          else
            match marshalLoop certs 0 (replicate (length certs) []) with
            | Fail err => Some ([], Some err)
            | Ok rootBytes => Some (rootBytes, None)
            end
      end
  end.

(** *** The loader as the specification words it *)

(** The splitter applied until the buffer is empty, every decoded
    certificate kept; a decode failure gives the underlying cause. *)
Fixpoint splitAll (fuel : nat) (b : bytes) : option (result (list Cert)) :=
  match b with
  | [] => Some (Ok [])
  | _ :: _ =>
      match fuel with
      | O => None
      | S fuel' =>
          match UnmarshalNebulaCertificateFromPEM b with
          | Fail err => Some (Fail err)
          | Ok (crt, b') =>
              match splitAll fuel' b' with
              | Some (Ok crts) => Some (Ok (crt :: crts))
              | other => other
              end
          end
      end
  end.

(** Each certificate re-encoded, in order; the first failure is returned. *)
Fixpoint encodeAll (certs : list Cert) : result (list bytes) :=
  match certs with
  | [] => Ok []
  | crt :: certs' =>
      match MarshalToPEM crt with
      | Fail err => Fail err
      | Ok b =>
          match encodeAll certs' with
          | Ok bs => Ok (b :: bs)
          | Fail err => Fail err
          end
      end
  end.

(** Steps 3 to 5 of the specification on the decoded certificates: keep the
    certificate authorities in order, fail when none is left, re-encode.
    The specification is silent on a failing re-encoding; it is reported
    here the way the code reports it. *)
Definition trustRootsOf (rootFile : string) (decoded : list Cert)
    : list bytes * option error :=
  match filter (λ crt, IsCA crt = true) decoded with
  | [] => ([], Some (New ("error reading " +:+ rootFile
                          +:+ ": no CA certificates found")))
  | cas =>
      match encodeAll cas with
      | Ok pems => (pems, None)
      | Fail err => ([], Some (Wrap err "error marshaling certificate"))
      end
  end.

(** A PEM blob that decodes to a certificate authority. *)
Definition decodesToCA (pem : bytes) : Prop :=
  ∃ crt rest, UnmarshalNebulaCertificateFromPEM pem = Ok (crt, rest)
              ∧ IsCA crt = true.

(** The round trip of the certificate library, for the certificates the
    loader keeps: a parsed certificate authority re-encodes, and its PEM
    form parses back to the same certificate. *)
Definition roundTrips : Prop :=
  ∀ (b : bytes) (crt : Cert) (rest : bytes),
    UnmarshalNebulaCertificateFromPEM b = Ok (crt, rest) →
    IsCA crt = true →
    ∃ pem rest', MarshalToPEM crt = Ok pem
                 ∧ UnmarshalNebulaCertificateFromPEM pem = Ok (crt, rest').

End Loader.

End Nebula.

(** ** The choice of the backend, [newCRUDClient] *)

Module Client.

(** [config.AuthConfig] and [config.Config], with the two fields the function
    reads. *)
Record AuthConfig (Provisioner : Type) : Type := {
  EnableAdmin : bool;
  Provisioners : list Provisioner
}.
Arguments EnableAdmin {Provisioner} _.
Arguments Provisioners {Provisioner} _.

Record Config (Provisioner : Type) : Type := {
  AuthorityConfig : AuthConfig Provisioner
}.
Arguments AuthorityConfig {Provisioner} _.

(** The collaborators: [os.Stat] (the file info is dropped, [None] is a nil
    error), the test [errors.Is(err, os.ErrNotExist)] on a non-nil error,
    [config.LoadConfiguration], [cautils.NewAdminClient], and
    [newAdminAPIDisabledClient] of this package (its [context.Background()]
    argument is a constant). Each of the two constructors returns a pointer
    to its client ([None] is the nil pointer) and an error; [newCRUDClient]
    returns that pair at the interface type. *)
Class Collaborators (CliContext Provisioner AdminClient ConfigClient : Type)
    : Type := {
  Stat : string → option error;
  IsNotExist : error → bool;
  LoadConfiguration : string → result (Config Provisioner);
  NewAdminClient : CliContext → option AdminClient * option error;
  newAdminAPIDisabledClient :
    Config Provisioner → string → option ConfigClient * option error
}.

Section Selector.
Context {CliContext Provisioner AdminClient ConfigClient : Type}.
Context {collab : Collaborators CliContext Provisioner AdminClient ConfigClient}.

(** A non-nil value of the interface [crudClient]: a pointer to one of its
    two implementations, the client of the admin API or the client that
    works on the configuration file. The pointer inside may be nil; the nil
    interface itself is [None : option crudClient]. *)
Inductive crudClient : Type :=
| AdminBacked (p : option AdminClient)
| FileBacked (p : option ConfigClient).

(** The calls to collaborators, in the order they are made. *)
Inductive Call : Type :=
| CallStat (name : string)
| CallLoadConfiguration (name : string)
| CallNewAdminClient (cliCtx : CliContext)
| CallNewAdminAPIDisabledClient (cfg : Config Provisioner) (name : string).

(** A computation that returns a value and the calls it made. *)
Definition Logged (A : Type) : Type := A * list Call.

Definition ret {A} (a : A) : Logged A := (a, []).

Definition bind {A B} (m : Logged A) (k : A → Logged B) : Logged B :=
  let (b, calls) := k (fst m) in (b, snd m ++ calls).

Definition call {A} (c : Call) (a : A) : Logged A := (a, [c]).

(** [errors.Is(err, os.ErrNotExist)]: false on a nil error. *)
Definition isNotExist (err : option error) : bool :=
  match err with
  | None => false
  | Some e => IsNotExist e
  end.

(** [return f(...)] for a constructor [f]: the pointer is converted to the
    interface type, which gives a non-nil interface value whatever the
    pointer is, a nil pointer included; the error is passed as it is. *)
Definition asCRUD {C} (tag : option C → crudClient)
    (r : option C * option error) : option crudClient * option error :=
  (Some (tag (fst r)), snd r).

(** [func newCRUDClient(cliCtx *cli.Context, configFile string) (crudClient, error)] *)
Definition newCRUDClient (cliCtx : CliContext) (configFile : string)
    : Logged (option crudClient * option error) :=
  bind (call (CallStat configFile) (Stat configFile)) (λ err,
  if isNotExist err then
    bind (call (CallNewAdminClient cliCtx) (NewAdminClient cliCtx)) (λ r,
    ret (asCRUD AdminBacked r))
  else
    match err with
    | None =>
        bind (call (CallLoadConfiguration configFile)
                   (LoadConfiguration configFile)) (λ loaded,
        match loaded with
        | Fail err' =>
            ret (None, Some (Wrap err' "error loading configuration"))
        | Ok config =>
            if EnableAdmin (AuthorityConfig config) then
              if 0 <? length (Provisioners (AuthorityConfig config)) then
                ret (None, Some (New "when 'enableAdmin' attribute set to 'true', provisioners list in ca.json must be empty"))
              else
                bind (call (CallNewAdminClient cliCtx)
                           (NewAdminClient cliCtx)) (λ r,
                ret (asCRUD AdminBacked r))
            else
              bind (call (CallNewAdminAPIDisabledClient config configFile)
                         (newAdminAPIDisabledClient config configFile)) (λ r,
              ret (asCRUD FileBacked r))
        end)
    | Some err' => ret (None, Some (FileError err' configFile))
    end).

(** The remote admin connection is reached through [cliCtx] only, and
    [cliCtx] is used by [NewAdminClient] only. *)
Definition touchesAdmin (c : Call) : bool :=
  match c with
  | CallNewAdminClient _ => true
  | _ => false
  end.

End Selector.

End Client.

(** ** Small instances of the collaborators, to run the functions on *)

Module Fixtures.
Import Nebula Client.

(** A certificate reduced to its [IsCA] flag and a one-byte serial. *)
Record ToyCert : Type := { toyCA : bool; toySerial : byte }.

Definition ca (serial : byte) : ToyCert :=
  {| toyCA := true; toySerial := serial |}.
Definition leaf (serial : byte) : ToyCert :=
  {| toyCA := false; toySerial := serial |}.

(** A block is two bytes: [x01] or [x00] for the flag, then the serial. *)
Definition toyUnmarshal (b : bytes) : result (ToyCert * bytes) :=
  match b with
  | x01 :: serial :: rest => Ok ({| toyCA := true; toySerial := serial |}, rest)
  | x00 :: serial :: rest => Ok ({| toyCA := false; toySerial := serial |}, rest)
  | _ => Fail (New "input did not contain a valid PEM encoded block")
  end.

(** Encoding, refused for the serials in [refuse]. *)
Definition toyMarshal (refuse : byte → bool) (crt : ToyCert) : result bytes :=
  if refuse (toySerial crt) then Fail (New "cannot marshal")
  else Ok [if toyCA crt then x01 else x00; toySerial crt].

(** Two certificate authorities around a leaf. *)
Definition chain : bytes := [x01; x0a; x00; x0b; x01; x0c].

(** Four files: the chain, leaves only, a last block cut short, and two
    certificate authorities the second of which has serial [xff]. *)
Definition toyReadFile (name : string) : result bytes :=
  if String.eqb name "chain.pem" then Ok chain
  else if String.eqb name "leaves.pem" then Ok [x00; x0a; x00; x0b]
  else if String.eqb name "cut.pem" then Ok [x01; x0a; x00; x0b; x01]
  else if String.eqb name "ff.pem" then Ok [x01; x0a; x01; xff]
  else Fail (New "no such file").

Definition toyCodec (refuse : byte → bool) : Codec ToyCert := {|
  IsCA := toyCA;
  UnmarshalNebulaCertificateFromPEM := toyUnmarshal;
  MarshalToPEM := toyMarshal refuse;
  ReadFile := toyReadFile
|}.

(** Every certificate encodes. *)
Definition plainCodec : Codec ToyCert := toyCodec (λ _, false).

(** The serial [xff] does not encode. *)
Definition brittleCodec : Codec ToyCert := toyCodec (Byte.eqb xff).

(** A configuration directory: [ca.json] with the admin API off and one
    provisioner, [admin.json] with the admin API on and no provisioner,
    [both.json] with the admin API on and one provisioner, [broken.json]
    that does not parse, [locked.json] that cannot be examined; any other
    name does not exist. *)
Definition toyConfig (name : string) : option (Config string) :=
  if String.eqb name "ca.json" then
    Some {| AuthorityConfig := {| EnableAdmin := false; Provisioners := ["jwk"] |} |}
  else if String.eqb name "admin.json" then
    Some {| AuthorityConfig := {| EnableAdmin := true; Provisioners := [] |} |}
  else if String.eqb name "both.json" then
    Some {| AuthorityConfig := {| EnableAdmin := true; Provisioners := ["jwk"] |} |}
  else None.

Definition toyStat (name : string) : option error :=
  if String.eqb name "locked.json" then Some (New "permission denied")
  else if String.eqb name "broken.json" then None
  else match toyConfig name with
       | Some _ => None
       | None => Some (New "no such file or directory")
       end.

Definition toyIsNotExist (e : error) : bool :=
  match e with
  | New msg => String.eqb msg "no such file or directory"
  | _ => false
  end.

Definition toyLoadConfiguration (name : string) : result (Config string) :=
  match toyConfig name with
  | Some cfg => Ok cfg
  | None => Fail (New "unexpected end of JSON input")
  end.

(** The admin client is the context it was built from; the file client is
    the configuration and the path it was built from. *)
Definition toyCollaborators
    : Collaborators string string string (Config string * string) := {|
  Stat := toyStat;
  IsNotExist := toyIsNotExist;
  LoadConfiguration := toyLoadConfiguration;
  NewAdminClient := λ cliCtx, (Some cliCtx, None);
  newAdminAPIDisabledClient := λ cfg name, (Some (cfg, name), None)
|}.

End Fixtures.

(** ** The index checks of the Go runtime in [removeElements] *)

Module SliceBounds.
Import Slices.

(** [list[j]] as a read: a run-time panic ([None]) unless [0 <= j < len]. *)
Definition index_read (s : slice) (j : nat) : option string :=
  if decide (j < len s) then arr s !! j else None.

(** [list[j] = x]: the same check, then the write into the backing array. *)
Definition index_write (s : slice) (j : nat) (x : string) : option slice :=
  if decide (j < len s ∧ j < length (arr s))
  then Some (Slice (<[j := x]> (arr s)) (len s))
  else None.

(** [list[:n]]: a panic unless [0 <= n <= cap]. *)
Definition reslice (s : slice) (n : nat) : option slice :=
  if decide (n ≤ length (arr s)) then Some (Slice (arr s) n) else None.

(** The body of the [if] with its checks: [len(list)-1] is [-1] on a
    slice of length zero, and every index expression is checked. *)
Definition swap_remove_checked (s : slice) (i : nat) : option slice :=
  if decide (1 ≤ len s) then
    y ← index_read s (len s - 1);
    s' ← index_write s i y;
    reslice s' (len s' - 1)
  else None.

Definition remove_one_checked (s : slice) (rem : string) : option slice :=
  match range_find rem (view s) 0 with
  | Some i => swap_remove_checked s i
  | None => Some s
  end.

(** The outer loop, stopping at the first panic. *)
Fixpoint remove_all_checked (rems : list string) (s : slice) : option slice :=
  match rems with
  | [] => Some s
  | rem :: rems' => s' ← remove_one_checked s rem; remove_all_checked rems' s'
  end.

(** [removeElements] under the run-time checks: [None] is a panic. *)
Definition removeElements_checked (lst : slice) (rems : list string)
    : option slice :=
  if len lst =? 0 then Some lst else remove_all_checked rems lst.

End SliceBounds.

(** ** The instance age flag, [parseInstanceAge] *)

Module InstanceAge.

(** What the function uses of other packages: the methods [IsSet] and
    [String] of [*cli.Context], [time.ParseDuration] (a [time.Duration] is a
    signed count of nanoseconds), and [errs.MinSizeFlag], which builds the
    error for a flag below its minimum. The package declares
    [instance-age] as a [cli.DurationFlag]: what [String] returns for it is
    the context's rendering of the flag's value, which need not be the text
    typed on the command line. *)
Class Flags (CliContext : Type) : Type := {
  IsSet : CliContext → string → bool;
  String : CliContext → string → string;
  ParseDuration : string → result Z;
  MinSizeFlag : CliContext → string → string → error
}.

Section Parse.
Context {CliContext : Type} {flags : Flags CliContext}.

(** [func parseInstanceAge(ctx *cli.Context) (age string, err error)]. The
    bare [return]s give the named results: the zero values when the flag is
    not set, [age] and the nil [err] at the end. *)
Definition parseInstanceAge (ctx : CliContext) : string * option error :=
  if negb (IsSet ctx "instance-age") then ("", None)
  else
    let age := String ctx "instance-age" in
    match ParseDuration age with
    | Fail err => ("", Some err)
    | Ok dur =>
        if (dur <? 0)%Z then
          ("", Some (MinSizeFlag ctx "instance-age" "0s"))
        else (age, None)
    end.

End Parse.

End InstanceAge.

(** ** The calls of [newCRUDClient], by kind *)

Module ClientCalls.
Import Client.

Section Kinds.
Context {CliContext Provisioner AdminClient ConfigClient : Type}.
Context {collab : Collaborators CliContext Provisioner AdminClient ConfigClient}.

(** A call that builds a client. *)
Definition buildsClient (c : Call (CliContext := CliContext)
                                  (Provisioner := Provisioner)) : bool :=
  match c with
  | CallNewAdminClient _ | CallNewAdminAPIDisabledClient _ _ => true
  | _ => false
  end.

(** A call that builds the client of the configuration file. *)
Definition buildsFileClient (c : Call (CliContext := CliContext)
                                      (Provisioner := Provisioner)) : bool :=
  match c with
  | CallNewAdminAPIDisabledClient _ _ => true
  | _ => false
  end.

(** A call that reads the configuration file. *)
Definition loadsConfig (c : Call (CliContext := CliContext)
                                 (Provisioner := Provisioner)) : bool :=
  match c with
  | CallLoadConfiguration _ => true
  | _ => false
  end.

End Kinds.

End ClientCalls.

(** ** Instances for [parseInstanceAge] *)

Module AgeFixtures.
Import InstanceAge.

(** A context is the value given to [--instance-age], if any. Durations
    are read from three spellings only. *)
Definition ageFlags : Flags (option string) := {|
  IsSet := λ ctx name,
    match ctx with
    | Some _ => String.eqb name "instance-age"
    | None => false
    end;
  String := λ ctx name,
    match ctx with
    | Some v => if String.eqb name "instance-age" then v else ""
    | None => ""
    end;
  ParseDuration := λ s,
    if String.eqb s "0s" then Ok 0%Z
    else if String.eqb s "1h" then Ok 3600000000000%Z
    else if String.eqb s "-1h" then Ok (-3600000000000)%Z
    else Fail (New "time: invalid duration");
  MinSizeFlag := λ ctx name min,
    New ("flag '--" +:+ name +:+ "' must be greater than or equal to " +:+ min)
|}.

End AgeFixtures.

(** ** A duration flag for [parseInstanceAge] *)

Module DurationFixtures.
Import InstanceAge.

(** A context is the duration given to [--instance-age], if any, in
    nanoseconds, as a duration flag keeps it. [String] renders it the way
    [time.Duration] prints, for the three durations used here; an hour
    typed as [1h] comes back as [1h0m0s]. *)
Definition renderDuration (d : Z) : string :=
  if (d =? 0)%Z then "0s"
  else if (d =? 3600000000000)%Z then "1h0m0s"
  else if (d =? -3600000000000)%Z then "-1h0m0s"
  else "".

Definition durationFlags : Flags (option Z) := {|
  IsSet := λ ctx name,
    match ctx with
    | Some _ => String.eqb name "instance-age"
    | None => false
    end;
  String := λ ctx name,
    match ctx with
    | Some d => if String.eqb name "instance-age" then renderDuration d else ""
    | None => ""
    end;
  ParseDuration := λ s,
    if String.eqb s "0s" then Ok 0%Z
    else if String.eqb s "1h0m0s" then Ok 3600000000000%Z
    else if String.eqb s "-1h0m0s" then Ok (-3600000000000)%Z
    else Fail (New "time: invalid duration");
  MinSizeFlag := λ ctx name min,
    New ("flag '--" +:+ name +:+ "' must be greater than or equal to " +:+ min)
|}.

End DurationFixtures.

(** ** The toy directory with no authority to reach *)

Module OfflineFixtures.
Import Client Fixtures.

(** The files of [toyCollaborators], but each constructor fails: it
    returns a nil pointer and an error. *)
Definition offlineCollaborators
    : Collaborators string string string (Config string * string) := {|
  Stat := toyStat;
  IsNotExist := toyIsNotExist;
  LoadConfiguration := toyLoadConfiguration;
  NewAdminClient := λ _, (None, Some (New "'--ca-url' flag is required"));
  newAdminAPIDisabledClient := λ _ _,
    (None, Some (New "error loading authority"))
|}.

End OfflineFixtures.

(** * Properties *)

(** ** [removeElements] *)

Module SlicesFacts.
Import Slices.

Lemma view_length (s : slice) : wf s → length (view s) = len s.
Proof. unfold wf, view. intros Hwf. rewrite length_take. lia. Qed.

Lemma view_lookup (s : slice) (i : nat) :
  i < len s → view s !! i = arr s !! i.
Proof. intros Hi. unfold view. by rewrite lookup_take_lt. Qed.

(** What the inner loop finds: the first index, from [k] on, whose element
    equals [rem]. *)
Lemma range_find_Some (rem : string) (l : list string) (k i : nat) :
  range_find rem l k = Some i ↔
  ∃ j, i = k + j ∧ l !! j = Some rem ∧ ∀ j', j' < j → l !! j' ≠ Some rem.
Proof.
  revert k. induction l as [|elem l IH]; intros k; simpl.
  - split; [done|]. by intros (j & _ & Hj & _).
  - destruct (String.eqb_spec elem rem) as [->|Hne].
    + split.
      * intros [= <-]. exists 0. split; [lia|]. split; [done|]. lia.
      * intros (j & -> & Hj & Hmin). destruct j as [|j]; [f_equal; lia|].
        exfalso. apply (Hmin 0); [lia|done].
    + rewrite IH. split.
      * intros (j & -> & Hj & Hmin). exists (S j). split; [lia|].
        split; [done|]. intros [|j'] Hlt; simpl; [congruence|].
        apply Hmin. lia.
      * intros (j & -> & Hj & Hmin). destruct j as [|j]; simpl in Hj.
        { congruence. }
        exists j. split; [lia|]. split; [done|].
        intros j' Hlt. apply (Hmin (S j')). lia.
Qed.

Lemma range_find_None (rem : string) (l : list string) (k : nat) :
  range_find rem l k = None ↔ rem ∉ l.
Proof.
  revert k. induction l as [|elem l IH]; intros k; simpl.
  - split; [intros _; apply not_elem_of_nil|done].
  - rewrite not_elem_of_cons.
    destruct (String.eqb_spec elem rem) as [->|Hne].
    + split; [done|]. by intros [? _].
    + rewrite IH. split; [by intros ?; split|by intros [_ ?]].
Qed.

(** The index expressions of the [if] body never leave the backing array:
    the loop cannot panic. *)
Lemma range_find_in_range (s : slice) (rem : string) (i : nat) :
  wf s → range_find rem (view s) 0 = Some i →
  i < len s ∧ len s - 1 < length (arr s) ∧ 1 ≤ len s.
Proof.
  intros Hwf (j & -> & Hj & _)%range_find_Some.
  apply lookup_lt_Some in Hj. rewrite view_length in Hj by done.
  unfold wf in Hwf. lia.
Qed.

(** Overwriting position [i] with the last element and dropping the last
    position removes exactly the element that was at [i]. *)
Lemma swap_with_last_perm (l : list string) (i : nat) (x y : string) :
  l !! i = Some x → last l = Some y →
  x :: take (length l - 1) (<[i := y]> l) ≡ₚ l.
Proof.
  intros Hi Hlast.
  destruct (last_Some l y) as [[l' ->] _]; [done|].
  rewrite length_app. simpl.
  replace (length l' + 1 - 1) with (length l') by lia.
  destruct (decide (i < length l')) as [Hlt|Hge].
  - rewrite insert_app_l by done.
    rewrite take_app_length' by (by rewrite length_insert).
    rewrite lookup_app_l in Hi by done.
    rewrite <- (take_drop_middle l' i x Hi) at 2.
    rewrite insert_take_drop by done.
    rewrite <- !app_assoc. simpl.
    solve_Permutation.
  - assert (i = length l') as ->.
    { apply lookup_lt_Some in Hi. rewrite length_app in Hi. simpl in Hi. lia. }
    rewrite list_lookup_middle in Hi by done. injection Hi as ->.
    rewrite insert_app_r_alt by lia. rewrite Nat.sub_diag. simpl.
    rewrite take_app_length.
    apply Permutation_cons_append.
Qed.

Lemma view_last (s : slice) :
  wf s → 1 ≤ len s →
  last (view s) = Some (default "" (arr s !! (len s - 1))).
Proof.
  intros Hwf Hpos. rewrite last_lookup, view_length by done.
  replace (Nat.pred (len s)) with (len s - 1) by lia.
  rewrite view_lookup by lia.
  destruct (lookup_lt_is_Some_2 (arr s) (len s - 1)) as [y Hy].
  { unfold wf in Hwf. lia. }
  by rewrite Hy.
Qed.

Lemma view_swap_remove (s : slice) (i : nat) :
  wf s → i < len s →
  view (swap_remove s i) =
  take (length (view s) - 1)
       (<[i := default "" (arr s !! (len s - 1))]> (view s)).
Proof.
  intros Hwf Hi. rewrite view_length by done.
  unfold view, swap_remove. simpl.
  rewrite <- take_insert_lt by done.
  rewrite take_take. f_equal. lia.
Qed.

Lemma swap_remove_perm (s : slice) (i : nat) (x : string) :
  wf s → view s !! i = Some x → x :: view (swap_remove s i) ≡ₚ view s.
Proof.
  intros Hwf Hi.
  assert (i < len s) as Hlt.
  { apply lookup_lt_Some in Hi. by rewrite view_length in Hi. }
  rewrite view_swap_remove by done.
  apply swap_with_last_perm; [done|]. apply view_last; [done|lia].
Qed.

Lemma swap_remove_wf (s : slice) (i : nat) : wf s → wf (swap_remove s i).
Proof. unfold wf, swap_remove. simpl. rewrite length_insert. lia. Qed.

Lemma remove_one_wf (s : slice) (rem : string) : wf s → wf (remove_one s rem).
Proof.
  intros Hwf. unfold remove_one.
  destruct (range_find rem (view s) 0); [by apply swap_remove_wf|done].
Qed.

Lemma fold_remove_one_wf (rems : list string) (s : slice) :
  wf s → wf (fold_left remove_one rems s).
Proof.
  revert s. induction rems as [|rem rems IH]; intros s Hwf; simpl; [done|].
  apply IH. by apply remove_one_wf.
Qed.

Lemma remove_one_found (s : slice) (rem : string) (i : nat) :
  wf s → range_find rem (view s) 0 = Some i →
  rem :: view (remove_one s rem) ≡ₚ view s
  ∧ len (remove_one s rem) = len s - 1 ∧ 1 ≤ len s.
Proof.
  intros Hwf Hfind. destruct (range_find_in_range s rem i) as (_ & _ & Hpos);
    [done..|].
  unfold remove_one. rewrite Hfind.
  apply range_find_Some in Hfind as (j & -> & Hj & _).
  split; [by apply swap_remove_perm|done].
Qed.

Lemma remove_one_missing (s : slice) (rem : string) :
  range_find rem (view s) 0 = None → remove_one s rem = s.
Proof. intros Hfind. unfold remove_one. by rewrite Hfind. Qed.

Lemma view_empty (s : slice) : len s = 0 → view s = [].
Proof. intros Hlen. unfold view. by rewrite Hlen. Qed.

Lemma fold_remove_one_empty (rems : list string) (s : slice) :
  len s = 0 → fold_left remove_one rems s = s.
Proof.
  intros Hlen. induction rems as [|rem rems IH]; simpl; [done|].
  unfold remove_one at 2. by rewrite (view_empty s Hlen).
Qed.

Lemma matched_empty (rems : list string) (s : slice) :
  len s = 0 → matched s rems = [].
Proof.
  intros Hlen. induction rems as [|rem rems IH]; simpl; [done|].
  by rewrite (view_empty s Hlen).
Qed.

(** The early return changes nothing: the loops do the same on a slice of
    length zero. *)
Lemma removeElements_fold (s : slice) (rems : list string) :
  removeElements s rems = fold_left remove_one rems s.
Proof.
  unfold removeElements. destruct (len s =? 0) eqn:Hlen; [|done].
  apply Nat.eqb_eq in Hlen. by rewrite fold_remove_one_empty.
Qed.

Lemma fold_remove_one_perm (rems : list string) (s : slice) :
  wf s → view s ≡ₚ view (fold_left remove_one rems s) ++ matched s rems.
Proof.
  revert s. induction rems as [|rem rems IH]; intros s Hwf; simpl.
  - by rewrite app_nil_r.
  - destruct (range_find rem (view s) 0) as [i|] eqn:Hfind.
    + destruct (remove_one_found s rem i Hwf Hfind) as (Hperm & _).
      rewrite <- Hperm, (IH (remove_one s rem)) at 1 by (by apply remove_one_wf).
      by rewrite Permutation_middle.
    + rewrite (remove_one_missing s rem Hfind). by apply IH.
Qed.

Lemma fold_remove_one_len (rems : list string) (s : slice) :
  wf s → len (fold_left remove_one rems s) + length (matched s rems) = len s.
Proof.
  revert s. induction rems as [|rem rems IH]; intros s Hwf; simpl; [lia|].
  destruct (range_find rem (view s) 0) as [i|] eqn:Hfind.
  - destruct (remove_one_found s rem i Hwf Hfind) as (_ & Hlen & Hpos).
    specialize (IH (remove_one s rem) (remove_one_wf s rem Hwf)).
    simpl. lia.
  - rewrite (remove_one_missing s rem Hfind). by apply IH.
Qed.

Lemma matched_sublist (rems : list string) (s : slice) :
  matched s rems `sublist_of` rems.
Proof.
  revert s. induction rems as [|rem rems IH]; intros s; simpl; [done|].
  destruct (range_find rem (view s) 0).
  - by apply sublist_skip.
  - by apply sublist_cons.
Qed.

Lemma occurrences_cons (x y : string) (l : list string) :
  occurrences x (y :: l) = (if decide (y = x) then 1 else 0) + occurrences x l.
Proof. unfold occurrences. rewrite filter_cons. by destruct (decide (y = x)). Qed.

Lemma occurrences_perm (x : string) (l k : list string) :
  l ≡ₚ k → occurrences x l = occurrences x k.
Proof. intros Hperm. unfold occurrences. by rewrite Hperm. Qed.

Lemma occurrences_zero (x : string) (l : list string) :
  x ∉ l → occurrences x l = 0.
Proof.
  induction l as [|y l IH]; [done|].
  rewrite not_elem_of_cons, occurrences_cons. intros [Hne Hnot].
  rewrite decide_False by done. by rewrite IH.
Qed.

Lemma occurrences_pos (x : string) (l : list string) :
  x ∈ l → 0 < occurrences x l.
Proof.
  induction l as [|y l IH]; [by intros ?%elem_of_nil|].
  rewrite occurrences_cons. intros [->|Hin]%elem_of_cons.
  - rewrite decide_True by done. lia.
  - specialize (IH Hin). lia.
Qed.

Lemma occurrences_NoDup (x : string) (l : list string) :
  NoDup l → occurrences x l ≤ 1.
Proof.
  induction 1 as [|y l Hnot Hnd IH]; [unfold occurrences; simpl; lia|].
  rewrite occurrences_cons. destruct (decide (y = x)) as [->|]; [|lia].
  rewrite occurrences_zero by done. lia.
Qed.

Lemma fold_remove_one_occurrences (x : string) (rems : list string) (s : slice) :
  wf s →
  occurrences x (view (fold_left remove_one rems s))
  = occurrences x (view s) - occurrences x rems.
Proof.
  revert s. induction rems as [|rem rems IH]; intros s Hwf; simpl.
  - unfold occurrences at 3. simpl. lia.
  - rewrite IH by (by apply remove_one_wf). rewrite occurrences_cons.
    destruct (range_find rem (view s) 0) as [i|] eqn:Hfind.
    + destruct (remove_one_found s rem i Hwf Hfind) as (Hperm & _).
      rewrite <- (occurrences_perm x _ _ Hperm), occurrences_cons.
      destruct (decide (rem = x)); lia.
    + rewrite (remove_one_missing s rem Hfind).
      destruct (decide (rem = x)) as [->|]; [|done].
      apply range_find_None in Hfind.
      rewrite (occurrences_zero x (view s)) by done. lia.
Qed.

(** C3, as amended. For every well-formed slice [current] and every list
    [toRemove]: the matched removals are a sub-list of [toRemove]; [current]
    is, up to order, the result together with the matched removals, so each
    matched entry removed exactly one element equal to it; the length of the
    result is the length of [current] minus the number of matched removals;
    every value occurs in the result as often as in [current] minus its
    occurrences in [toRemove] (never below zero); hence a value of
    [toRemove] that remains occurs more often in [current] than in
    [toRemove], and none remains when [current] has no duplicates. *)
Theorem removeElements_removes_matched (current : slice) (toRemove : list string) :
  wf current →
  matched current toRemove `sublist_of` toRemove
  ∧ view current
    ≡ₚ view (removeElements current toRemove) ++ matched current toRemove
  ∧ length (view (removeElements current toRemove))
    = length (view current) - length (matched current toRemove)
  ∧ (∀ x, occurrences x (view (removeElements current toRemove))
          = occurrences x (view current) - occurrences x toRemove)
  ∧ (∀ x, x ∈ view (removeElements current toRemove) → x ∈ toRemove →
          occurrences x toRemove < occurrences x (view current))
  ∧ (NoDup (view current) →
     ∀ x, x ∈ view (removeElements current toRemove) → x ∉ toRemove).
Proof.
  intros Hwf. rewrite removeElements_fold.
  assert (∀ x, x ∈ view (fold_left remove_one toRemove current) →
               occurrences x toRemove < occurrences x (view current)) as Hmore.
  { intros x Hin%occurrences_pos.
    rewrite fold_remove_one_occurrences in Hin by done. lia. }
  split; [apply matched_sublist|].
  split; [by apply fold_remove_one_perm|].
  split.
  { rewrite !view_length by (done || by apply fold_remove_one_wf).
    pose proof (fold_remove_one_len toRemove current Hwf). lia. }
  split; [intros x; by apply fold_remove_one_occurrences|].
  split; [intros x Hin _; by apply Hmore|].
  intros Hnd x Hin Hrem. apply Hmore in Hin.
  apply occurrences_pos in Hrem.
  pose proof (occurrences_NoDup x (view current) Hnd). lia.
Qed.

Lemma removeElements_removes_matched_witness :
  matched (of_list ["a"; "b"; "a"; "c"]) ["a"; "d"; "c"]
    `sublist_of` ["a"; "d"; "c"]
  ∧ view (of_list ["a"; "b"; "a"; "c"])
    ≡ₚ view (removeElements (of_list ["a"; "b"; "a"; "c"]) ["a"; "d"; "c"])
       ++ matched (of_list ["a"; "b"; "a"; "c"]) ["a"; "d"; "c"]
  ∧ length (view (removeElements (of_list ["a"; "b"; "a"; "c"]) ["a"; "d"; "c"]))
    = length (view (of_list ["a"; "b"; "a"; "c"]))
      - length (matched (of_list ["a"; "b"; "a"; "c"]) ["a"; "d"; "c"])
  ∧ (∀ x, occurrences x
            (view (removeElements (of_list ["a"; "b"; "a"; "c"]) ["a"; "d"; "c"]))
          = occurrences x (view (of_list ["a"; "b"; "a"; "c"]))
            - occurrences x ["a"; "d"; "c"])
  ∧ (∀ x, x ∈ view (removeElements (of_list ["a"; "b"; "a"; "c"]) ["a"; "d"; "c"]) →
          x ∈ ["a"; "d"; "c"] →
          occurrences x ["a"; "d"; "c"]
          < occurrences x (view (of_list ["a"; "b"; "a"; "c"])))
  ∧ (NoDup (view (of_list ["a"; "b"; "a"; "c"])) →
     ∀ x, x ∈ view (removeElements (of_list ["a"; "b"; "a"; "c"]) ["a"; "d"; "c"]) →
          x ∉ ["a"; "d"; "c"]).
Proof.
  apply (removeElements_removes_matched (of_list ["a"; "b"; "a"; "c"])
           ["a"; "d"; "c"]).
  unfold wf. simpl. lia.
Defined.

(** The run behind the amendment of C3: with ["a"; "a"] and the removal of
    ["a"], one ["a"] remains, although it is a member of the removal list
    that had a matching occurrence in the current list. *)
Lemma removeElements_duplicate_remains :
  view (removeElements (of_list ["a"; "a"]) ["a"]) = ["a"]
  ∧ ¬ (∀ x, x ∈ view (removeElements (of_list ["a"; "a"]) ["a"]) →
            ¬ (x ∈ ["a"] ∧ x ∈ view (of_list ["a"; "a"]))).
Proof.
  split; [reflexivity|].
  intros Hclaim. apply (Hclaim "a").
  - vm_compute. apply list_elem_of_here.
  - split; [apply list_elem_of_here|]. vm_compute. apply list_elem_of_here.
Qed.

(** C8. Applied to a slice of length zero, whatever its backing array and
    whatever the removal list, [removeElements] returns that same slice: the
    result has no element and the backing array is as it was. *)
Theorem removeElements_empty (backing : list string) (toRemove : list string) :
  removeElements (Slice backing 0) toRemove = Slice backing 0
  ∧ view (removeElements (Slice backing 0) toRemove) = []
  ∧ removeElements (of_list []) toRemove = of_list [].
Proof. done. Qed.

(** C9. [removeElements] handles the removal entries one after the other
    in the order of the removal list, each on the slice the earlier ones
    left: with no entry it returns the slice as it is; an entry that equals
    no element is skipped; for any other entry, at the smallest index [i]
    whose element equals it, the last element is written to position [i],
    the slice loses its last position, and the rest of the removal list is
    applied to that slice. Hence it is the left fold of that step over the
    removal list, and a removal list in two parts is applied part after
    part. *)
Theorem removeElements_earliest_in_order
    (s : slice) (rem : string) (rems rems' : list string) :
  wf s →
  removeElements s [] = s
  ∧ (rem ∉ view s → removeElements s (rem :: rems) = removeElements s rems)
  ∧ (∀ i, view s !! i = Some rem →
          (∀ j, j < i → view s !! j ≠ Some rem) →
          ∃ y, view s !! (len s - 1) = Some y
               ∧ removeElements s (rem :: rems)
                 = removeElements (Slice (<[i := y]> (arr s)) (len s - 1)) rems
               ∧ view (Slice (<[i := y]> (arr s)) (len s - 1))
                 = take (len s - 1) (<[i := y]> (view s)))
  ∧ removeElements s rems = fold_left remove_one rems s
  ∧ removeElements s (rem :: rems) = removeElements (remove_one s rem) rems
  ∧ removeElements s (rems ++ rems')
    = removeElements (removeElements s rems) rems'
  ∧ (rem ∉ view s → remove_one s rem = s)
  ∧ (∀ i, view s !! i = Some rem →
          (∀ j, j < i → view s !! j ≠ Some rem) →
          ∃ y, view s !! (len s - 1) = Some y
               ∧ remove_one s rem = Slice (<[i := y]> (arr s)) (len s - 1)
               ∧ view (remove_one s rem)
                 = take (len s - 1) (<[i := y]> (view s))).
Proof.
  intros Hwf.
  assert (∀ i, view s !! i = Some rem →
               (∀ j, j < i → view s !! j ≠ Some rem) →
               ∃ y, view s !! (len s - 1) = Some y
                    ∧ remove_one s rem = Slice (<[i := y]> (arr s)) (len s - 1)
                    ∧ view (remove_one s rem)
                      = take (len s - 1) (<[i := y]> (view s))) as Hstep.
  { intros i Hi Hmin.
    assert (range_find rem (view s) 0 = Some i) as Hfind.
    { apply range_find_Some. by exists i. }
    destruct (range_find_in_range s rem i Hwf Hfind) as (Hlt & Hcap & Hpos).
    destruct (lookup_lt_is_Some_2 (arr s) (len s - 1) Hcap) as [y Hy].
    exists y. split; [by rewrite view_lookup by lia|].
    assert (remove_one s rem = Slice (<[i := y]> (arr s)) (len s - 1)) as Heq.
    { unfold remove_one, swap_remove. by rewrite Hfind, Hy. }
    split; [done|].
    unfold remove_one. rewrite Hfind, view_swap_remove, view_length by done.
    by rewrite Hy. }
  assert (rem ∉ view s → remove_one s rem = s) as Hskip.
  { intros Hnot. by apply remove_one_missing, range_find_None. }
  rewrite !removeElements_fold.
  split; [done|].
  split; [intros Hnot; simpl; by rewrite Hskip|].
  split.
  { intros i Hi Hmin. destruct (Hstep i Hi Hmin) as (y & Hy & Heq & Hview).
    exists y. split; [done|]. rewrite removeElements_fold. simpl.
    rewrite Heq. split; [done|]. by rewrite <- Heq. }
  split; [done|]. split; [done|].
  split; [by rewrite fold_left_app|].
  split; [exact Hskip|exact Hstep].
Qed.

Lemma removeElements_earliest_in_order_witness :
  removeElements (of_list ["a"; "b"; "a"; "c"]) [] = of_list ["a"; "b"; "a"; "c"]
  ∧ ("a" ∉ view (of_list ["a"; "b"; "a"; "c"]) →
     removeElements (of_list ["a"; "b"; "a"; "c"]) ("a" :: ["b"])
     = removeElements (of_list ["a"; "b"; "a"; "c"]) ["b"])
  ∧ (∀ i, view (of_list ["a"; "b"; "a"; "c"]) !! i = Some "a" →
          (∀ j, j < i → view (of_list ["a"; "b"; "a"; "c"]) !! j ≠ Some "a") →
          ∃ y, view (of_list ["a"; "b"; "a"; "c"])
                 !! (len (of_list ["a"; "b"; "a"; "c"]) - 1) = Some y
               ∧ removeElements (of_list ["a"; "b"; "a"; "c"]) ("a" :: ["b"])
                 = removeElements
                     (Slice (<[i := y]> (arr (of_list ["a"; "b"; "a"; "c"])))
                            (len (of_list ["a"; "b"; "a"; "c"]) - 1)) ["b"]
               ∧ view (Slice (<[i := y]> (arr (of_list ["a"; "b"; "a"; "c"])))
                             (len (of_list ["a"; "b"; "a"; "c"]) - 1))
                 = take (len (of_list ["a"; "b"; "a"; "c"]) - 1)
                        (<[i := y]> (view (of_list ["a"; "b"; "a"; "c"]))))
  ∧ removeElements (of_list ["a"; "b"; "a"; "c"]) ["b"]
    = fold_left remove_one ["b"] (of_list ["a"; "b"; "a"; "c"])
  ∧ removeElements (of_list ["a"; "b"; "a"; "c"]) ("a" :: ["b"])
    = removeElements (remove_one (of_list ["a"; "b"; "a"; "c"]) "a") ["b"]
  ∧ removeElements (of_list ["a"; "b"; "a"; "c"]) (["b"] ++ ["c"])
    = removeElements (removeElements (of_list ["a"; "b"; "a"; "c"]) ["b"]) ["c"]
  ∧ ("a" ∉ view (of_list ["a"; "b"; "a"; "c"]) →
     remove_one (of_list ["a"; "b"; "a"; "c"]) "a" = of_list ["a"; "b"; "a"; "c"])
  ∧ (∀ i, view (of_list ["a"; "b"; "a"; "c"]) !! i = Some "a" →
          (∀ j, j < i → view (of_list ["a"; "b"; "a"; "c"]) !! j ≠ Some "a") →
          ∃ y, view (of_list ["a"; "b"; "a"; "c"])
                 !! (len (of_list ["a"; "b"; "a"; "c"]) - 1) = Some y
               ∧ remove_one (of_list ["a"; "b"; "a"; "c"]) "a"
                 = Slice (<[i := y]> (arr (of_list ["a"; "b"; "a"; "c"])))
                         (len (of_list ["a"; "b"; "a"; "c"]) - 1)
               ∧ view (remove_one (of_list ["a"; "b"; "a"; "c"]) "a")
                 = take (len (of_list ["a"; "b"; "a"; "c"]) - 1)
                        (<[i := y]> (view (of_list ["a"; "b"; "a"; "c"])))).
Proof.
  apply (removeElements_earliest_in_order (of_list ["a"; "b"; "a"; "c"])
           "a" ["b"] ["c"]).
  unfold wf. simpl. lia.
Defined.

(** A run of [removeElements]: the first ["a"] is overwritten by the last
    element, then ["c"], now at index 0, by the new last element. *)
Example removeElements_run :
  view (removeElements (of_list ["a"; "b"; "a"; "c"]) ["a"; "d"; "c"])
  = ["a"; "b"].
Proof. reflexivity. Qed.

(** The backing array after a run, as the caller's slice still sees it:
    in the run above the second write puts ["a"] back at index 0; removing
    ["a"] from ["a"; "b"; "c"] leaves ["c"] at index 0 and at index 2. *)
Example removeElements_run_backing :
  arr (removeElements (of_list ["a"; "b"; "a"; "c"]) ["a"; "d"; "c"])
  = ["a"; "b"; "a"; "c"]
  ∧ arr (removeElements (of_list ["a"; "b"; "c"]) ["a"]) = ["c"; "b"; "c"].
Proof. split; reflexivity. Qed.

End SlicesFacts.

(** ** [readNebulaRoots] *)

Module NebulaFacts.
Import Nebula.

Section LoaderFacts.
Context {Cert : Type} {codec : Codec Cert}.

Local Abbreviation keepCA := (filter (λ crt : Cert, IsCA crt = true)).

(** The first loop, which keeps a certificate only when it is a
    certificate authority, against the splitter that keeps them all. *)
Lemma decodeLoop_splitAll (fuel : nat) (rootFile : string) (b : bytes)
    (certs : list Cert) :
  decodeLoop fuel rootFile b certs =
  match splitAll fuel b with
  | None => None
  | Some (Ok decoded) => Some (Ok (certs ++ keepCA decoded))
  | Some (Fail cause) =>
      Some (Fail (Wrap cause ("error reading " +:+ rootFile)))
  end.
Proof.
  revert b certs. induction fuel as [|fuel IH]; intros [|c b] certs; simpl;
    try (by rewrite ?app_nil_r).
  destruct (UnmarshalNebulaCertificateFromPEM (c :: b)) as [[crt b']|err];
    [|done].
  rewrite IH. destruct (splitAll fuel b') as [[decoded|cause]|]; [|done..].
  rewrite filter_cons. destruct (IsCA crt) eqn:Hca.
  - rewrite decide_True by done. by rewrite <- app_assoc.
  - rewrite decide_False by congruence. done.
Qed.

(** More fuel does not change what the splitter returns. *)
Lemma splitAll_fuel (fuel fuel' : nat) (b : bytes) (r : result (list Cert)) :
  fuel ≤ fuel' → splitAll fuel b = Some r → splitAll fuel' b = Some r.
Proof.
  revert fuel' b r. induction fuel as [|fuel IH]; intros fuel' [|c b] r Hle;
    simpl; try done; try (by destruct fuel').
  destruct fuel' as [|fuel']; [lia|]. simpl.
  destruct (UnmarshalNebulaCertificateFromPEM (c :: b)) as [[crt b']|err];
    [|done].
  destruct (splitAll fuel b') as [r'|] eqn:Hsplit; [|done].
  rewrite (IH fuel' b' r') by (done || lia). done.
Qed.

(** Every certificate of the splitter's result came out of the decoder. *)
Lemma splitAll_parsed (fuel : nat) (b : bytes) (decoded : list Cert) :
  splitAll fuel b = Some (Ok decoded) →
  Forall (λ crt, ∃ b' rest,
            UnmarshalNebulaCertificateFromPEM b' = Ok (crt, rest)) decoded.
Proof.
  revert b decoded. induction fuel as [|fuel IH]; intros [|c b] decoded;
    simpl; try done.
  - by intros [= <-].
  - by intros [= <-].
  - destruct (UnmarshalNebulaCertificateFromPEM (c :: b)) as [[crt b']|err]
      eqn:Hun; [|done].
    destruct (splitAll fuel b') as [[crts|cause]|] eqn:Hsplit; [|done..].
    intros [= <-]. constructor; [by eauto|by eapply IH].
Qed.

(** The second loop fills [rootBytes] from index [i] on with the encodings,
    and stops at the first certificate that does not encode. *)
Lemma marshalLoop_encodeAll (certs : list Cert) (i : nat)
    (rootBytes : list bytes) :
  length rootBytes = i + length certs →
  marshalLoop certs i rootBytes =
  match encodeAll certs with
  | Ok pems => Ok (take i rootBytes ++ pems)
  | Fail cause => Fail (Wrap cause "error marshaling certificate")
  end.
Proof.
  revert i rootBytes. induction certs as [|crt certs IH];
    intros i rootBytes Hlen; simpl in *.
  - rewrite app_nil_r, take_ge by lia. done.
  - destruct (MarshalToPEM crt) as [pem|cause]; [|done].
    rewrite IH by (rewrite length_insert; lia).
    destruct (encodeAll certs) as [pems|cause]; [|done].
    rewrite (take_S_r _ _ pem) by (apply list_lookup_insert_eq; lia).
    rewrite take_insert_ge by lia. by rewrite <- app_assoc.
Qed.

Lemma encodeAll_length (certs : list Cert) (pems : list bytes) :
  encodeAll certs = Ok pems → length pems = length certs.
Proof.
  revert pems. induction certs as [|crt certs IH]; intros pems; simpl.
  - by intros [= <-].
  - destruct (MarshalToPEM crt) as [pem|cause]; [|done].
    destruct (encodeAll certs) as [pems'|cause]; [|done].
    intros [= <-]. simpl. f_equal. by apply IH.
Qed.

(** The encodings stop at the first failure: the certificates before it
    encode, the failing one gives the cause. *)
Lemma encodeAll_first_failure (encoded : list Cert) (crt : Cert)
    (todo : list Cert) (cause : error) :
  Forall (λ c, ∃ pem, MarshalToPEM c = Ok pem) encoded →
  MarshalToPEM crt = Fail cause →
  encodeAll (encoded ++ crt :: todo) = Fail cause.
Proof.
  intros Hdone Hfail. induction Hdone as [|c encoded [pem Hpem] _ IH]; simpl.
  - by rewrite Hfail.
  - by rewrite Hpem, IH.
Qed.

(** Under the round trip, the kept certificates all encode, and each
    encoding parses back to a certificate authority. *)
Lemma encodeAll_roundTrips (cas : list Cert) :
  roundTrips →
  Forall (λ crt, IsCA crt = true
                 ∧ ∃ b' rest,
                     UnmarshalNebulaCertificateFromPEM b' = Ok (crt, rest))
         cas →
  ∃ pems, encodeAll cas = Ok pems ∧ Forall decodesToCA pems.
Proof.
  intros Hrt Hcas.
  induction Hcas as [|crt cas (Hca & b' & rest & Hparsed) _ (pems & Henc & Hall)];
    simpl.
  - by exists [].
  - destruct (Hrt b' crt rest Hparsed Hca) as (pem & rest' & Hpem & Hback).
    rewrite Hpem, Henc. exists (pem :: pems). split; [done|].
    constructor; [|done]. by exists crt, rest'.
Qed.

(** The function on a buffer that was read and decodes completely: it
    returns what the specification's steps 3 to 5 give. *)
Lemma readNebulaRoots_decoded (fuel : nat) (rootFile : string) (b : bytes)
    (decoded : list Cert) :
  ReadFile rootFile = Ok b →
  splitAll fuel b = Some (Ok decoded) →
  readNebulaRoots fuel rootFile = Some (trustRootsOf rootFile decoded).
Proof.
  intros Hread Hsplit. unfold readNebulaRoots, trustRootsOf.
  rewrite Hread, decodeLoop_splitAll, Hsplit. simpl.
  destruct (keepCA decoded) as [|crt cas] eqn:Hkeep; [done|].
  rewrite marshalLoop_encodeAll by (by rewrite length_replicate).
  simpl. destruct (MarshalToPEM crt) as [pem|cause]; [|done].
  by destruct (encodeAll cas).
Qed.

Lemma readNebulaRoots_fuel (fuel fuel' : nat) (rootFile : string) (b : bytes)
    (r : result (list Cert)) :
  ReadFile rootFile = Ok b → splitAll fuel b = Some r → fuel ≤ fuel' →
  readNebulaRoots fuel' rootFile = readNebulaRoots fuel rootFile.
Proof.
  intros Hread Hsplit Hle. unfold readNebulaRoots.
  rewrite Hread, !decodeLoop_splitAll.
  by rewrite Hsplit, (splitAll_fuel fuel fuel' b r Hle Hsplit).
Qed.

(** A success carries at least one root. *)
Lemma readNebulaRoots_success_nonempty (fuel : nat) (rootFile : string) :
  readNebulaRoots fuel rootFile ≠ Some ([], None).
Proof.
  unfold readNebulaRoots. destruct (ReadFile rootFile) as [b|err]; [|done].
  destruct (decodeLoop fuel rootFile b []) as [[certs|err]|]; [|done..].
  destruct certs as [|crt cas]; [done|].
  rewrite marshalLoop_encodeAll by (by rewrite length_replicate).
  destruct (encodeAll (crt :: cas)) as [pems|cause] eqn:Henc; [|done].
  apply encodeAll_length in Henc. destruct pems; [done|].
  simpl. congruence.
Qed.

(** C2. When the file is read and its buffer decodes completely within
    [fuel] steps into the certificates [decoded], [readNebulaRoots] returns,
    with that or any larger fuel, what the specification's steps give on
    [decoded]: the certificate authorities among them, in their order,
    each re-encoded to PEM. When the certificate library round-trips,
    the result has one blob for each certificate authority and every blob
    decodes to a certificate authority; so three certificates of which two
    are certificate authorities give exactly two such blobs. *)
Theorem readNebulaRoots_returns_CAs_in_order (fuel : nat)
    (rootFile : string) (b : bytes) (decoded : list Cert) :
  ReadFile rootFile = Ok b →
  splitAll fuel b = Some (Ok decoded) →
  (∀ fuel', fuel ≤ fuel' →
     readNebulaRoots fuel' rootFile = Some (trustRootsOf rootFile decoded))
  ∧ (∀ pems, filter (λ crt, IsCA crt = true) decoded ≠ [] →
       encodeAll (filter (λ crt, IsCA crt = true) decoded) = Ok pems →
       readNebulaRoots fuel rootFile = Some (pems, None))
  ∧ (roundTrips → filter (λ crt, IsCA crt = true) decoded ≠ [] →
     ∃ pems, readNebulaRoots fuel rootFile = Some (pems, None)
             ∧ length pems = length (filter (λ crt, IsCA crt = true) decoded)
             ∧ Forall decodesToCA pems)
  ∧ (roundTrips → length decoded = 3 →
     length (filter (λ crt, IsCA crt = true) decoded) = 2 →
     ∃ pem1 pem2, readNebulaRoots fuel rootFile = Some ([pem1; pem2], None)
                  ∧ decodesToCA pem1 ∧ decodesToCA pem2).
Proof.
  intros Hread Hsplit.
  pose proof (readNebulaRoots_decoded fuel rootFile b decoded Hread Hsplit)
    as Hrun.
  assert (∀ pems, keepCA decoded ≠ [] → encodeAll (keepCA decoded) = Ok pems →
                  readNebulaRoots fuel rootFile = Some (pems, None)) as Hok.
  { intros pems Hne Henc. rewrite Hrun. unfold trustRootsOf.
    destruct (keepCA decoded) as [|crt cas]; [done|]. by rewrite Henc. }
  assert (roundTrips → keepCA decoded ≠ [] →
          ∃ pems, readNebulaRoots fuel rootFile = Some (pems, None)
                  ∧ length pems = length (keepCA decoded)
                  ∧ Forall decodesToCA pems) as Hrt.
  { intros Hround Hne.
    destruct (encodeAll_roundTrips (keepCA decoded) Hround)
      as (pems & Henc & Hall).
    { apply Forall_forall. intros crt [Hca Hin]%list_elem_of_filter.
      split; [done|].
      pose proof (splitAll_parsed fuel b decoded Hsplit) as Hparsed.
      by apply (proj1 (Forall_forall _ _) Hparsed). }
    exists pems. split; [by apply Hok|].
    split; [by apply encodeAll_length|done]. }
  split.
  { intros fuel' Hle.
    by rewrite (readNebulaRoots_fuel fuel fuel' rootFile b (Ok decoded)). }
  split; [exact Hok|]. split; [exact Hrt|].
  intros Hround _ Htwo.
  destruct Hrt as (pems & Hres & Hlen & Hall); [done| |].
  { intros Hnil. by rewrite Hnil in Htwo. }
  rewrite Htwo in Hlen.
  destruct pems as [|pem1 [|pem2 [|? ?]]]; try done.
  exists pem1, pem2. split; [done|].
  apply Forall_cons in Hall as [H1 Hall]. apply Forall_cons in Hall as [H2 _].
  done.
Qed.

(** C4. When the file is read and decoding its buffer block after block
    meets, within [fuel] steps, a block that fails with [cause],
    [readNebulaRoots] returns, with that or any larger fuel, a nil list
    together with the error that wraps [cause] under the message
    "error reading" followed by the file name. *)
Theorem readNebulaRoots_decode_failure (fuel : nat) (rootFile : string)
    (b : bytes) (cause : error) :
  ReadFile rootFile = Ok b →
  splitAll fuel b = Some (Fail cause) →
  ∀ fuel', fuel ≤ fuel' →
    readNebulaRoots fuel' rootFile
    = Some ([], Some (Wrap cause ("error reading " +:+ rootFile)))
    ∧ cause_of (Wrap cause ("error reading " +:+ rootFile)) = Some cause.
Proof.
  intros Hread Hsplit fuel' Hle. split; [|done].
  rewrite (readNebulaRoots_fuel fuel fuel' rootFile b (Fail cause)) by done.
  unfold readNebulaRoots. by rewrite Hread, decodeLoop_splitAll, Hsplit.
Qed.

(** C5. When the file is read and its buffer decodes completely, within
    [fuel] steps, into certificates none of which is a certificate
    authority, [readNebulaRoots] returns, with that or any larger fuel, a
    nil list and the error "error reading <file>: no CA certificates
    found"; and for no file and no fuel does it return an empty list
    with a nil error. *)
Theorem readNebulaRoots_no_CA (fuel : nat) (rootFile : string) (b : bytes)
    (decoded : list Cert) :
  ReadFile rootFile = Ok b →
  splitAll fuel b = Some (Ok decoded) →
  Forall (λ crt, IsCA crt = false) decoded →
  (∀ fuel', fuel ≤ fuel' →
     readNebulaRoots fuel' rootFile
     = Some ([], Some (New ("error reading " +:+ rootFile
                            +:+ ": no CA certificates found"))))
  ∧ (∀ fuel' rootFile', readNebulaRoots fuel' rootFile' ≠ Some ([], None)).
Proof.
  intros Hread Hsplit Hleaf.
  split; [|intros; apply readNebulaRoots_success_nonempty].
  intros fuel' Hle.
  rewrite (readNebulaRoots_fuel fuel fuel' rootFile b (Ok decoded)) by done.
  rewrite (readNebulaRoots_decoded fuel rootFile b decoded) by done.
  unfold trustRootsOf.
  assert (keepCA decoded = []) as ->; [|done].
  clear Hsplit. induction Hleaf as [|crt decoded' Hcrt _ IH]; [done|].
  rewrite filter_cons, decide_False by congruence. exact IH.
Qed.

(** C10. When the file is read and its buffer decodes completely, and
    among the certificate authorities kept the certificates [encoded]
    re-encode but the next one, [crt], fails to re-encode with [cause],
    [readNebulaRoots] returns, with that or any larger fuel, a nil list and
    the error that wraps [cause] under "error marshaling certificate":
    the blobs already encoded are not returned. *)
Theorem readNebulaRoots_marshal_failure (fuel : nat) (rootFile : string)
    (b : bytes) (decoded encoded : list Cert) (crt : Cert)
    (todo : list Cert) (cause : error) :
  ReadFile rootFile = Ok b →
  splitAll fuel b = Some (Ok decoded) →
  filter (λ c, IsCA c = true) decoded = encoded ++ crt :: todo →
  Forall (λ c, ∃ pem, MarshalToPEM c = Ok pem) encoded →
  MarshalToPEM crt = Fail cause →
  ∀ fuel', fuel ≤ fuel' →
    readNebulaRoots fuel' rootFile
    = Some ([], Some (Wrap cause "error marshaling certificate"))
    ∧ cause_of (Wrap cause "error marshaling certificate") = Some cause.
Proof.
  intros Hread Hsplit Hkeep Hdone Hfail fuel' Hle. split; [|done].
  rewrite (readNebulaRoots_fuel fuel fuel' rootFile b (Ok decoded)) by done.
  rewrite (readNebulaRoots_decoded fuel rootFile b decoded) by done.
  unfold trustRootsOf. rewrite Hkeep.
  pose proof (encodeAll_first_failure encoded crt todo cause Hdone Hfail)
    as Henc.
  destruct (encoded ++ crt :: todo) as [|c cas] eqn:Hsplit';
    [by destruct encoded|].
  by rewrite Henc.
Qed.

End LoaderFacts.

Section LoaderRuns.
Import Fixtures.

(** The plain codec round-trips. *)
Lemma plainCodec_roundTrips : roundTrips (codec := plainCodec).
Proof.
  intros b [isCA serial] rest Hparsed Hca. simpl in Hca. subst isCA.
  exists [x01; serial], []. done.
Qed.

Lemma readNebulaRoots_returns_CAs_in_order_witness :
  ReadFile (Codec := plainCodec) "chain.pem" = Ok chain
  ∧ splitAll (codec := plainCodec) 3 chain
    = Some (Ok [ca x0a; leaf x0b; ca x0c])
  ∧ (∀ fuel', 3 ≤ fuel' →
       readNebulaRoots (codec := plainCodec) fuel' "chain.pem"
       = Some (trustRootsOf (codec := plainCodec) "chain.pem"
                 [ca x0a; leaf x0b; ca x0c]))
  ∧ (∀ pems,
       filter (λ crt, IsCA (Codec := plainCodec) crt = true)
         [ca x0a; leaf x0b; ca x0c] ≠ [] →
       encodeAll (codec := plainCodec)
         (filter (λ crt, IsCA (Codec := plainCodec) crt = true)
            [ca x0a; leaf x0b; ca x0c]) = Ok pems →
       readNebulaRoots (codec := plainCodec) 3 "chain.pem"
       = Some (pems, None))
  ∧ (roundTrips (codec := plainCodec) →
     filter (λ crt, IsCA (Codec := plainCodec) crt = true)
       [ca x0a; leaf x0b; ca x0c] ≠ [] →
     ∃ pems, readNebulaRoots (codec := plainCodec) 3 "chain.pem"
             = Some (pems, None)
             ∧ length pems
               = length (filter (λ crt, IsCA (Codec := plainCodec) crt = true)
                           [ca x0a; leaf x0b; ca x0c])
             ∧ Forall (decodesToCA (codec := plainCodec)) pems)
  ∧ (roundTrips (codec := plainCodec) →
     length [ca x0a; leaf x0b; ca x0c] = 3 →
     length (filter (λ crt, IsCA (Codec := plainCodec) crt = true)
               [ca x0a; leaf x0b; ca x0c]) = 2 →
     ∃ pem1 pem2, readNebulaRoots (codec := plainCodec) 3 "chain.pem"
                  = Some ([pem1; pem2], None)
                  ∧ decodesToCA (codec := plainCodec) pem1
                  ∧ decodesToCA (codec := plainCodec) pem2).
Proof.
  split; [reflexivity|]. split; [reflexivity|].
  apply (readNebulaRoots_returns_CAs_in_order (codec := plainCodec)
           3 "chain.pem" chain [ca x0a; leaf x0b; ca x0c]); reflexivity.
Defined.

(** The run on the chain file: the two certificate authorities, in the
    order of the file, the leaf dropped. *)
Example readNebulaRoots_chain :
  readNebulaRoots (codec := plainCodec) 3 "chain.pem"
  = Some ([[x01; x0a]; [x01; x0c]], None).
Proof. reflexivity. Qed.

Lemma readNebulaRoots_decode_failure_witness :
  ReadFile (Codec := plainCodec) "cut.pem" = Ok [x01; x0a; x00; x0b; x01]
  ∧ splitAll (codec := plainCodec) 3 [x01; x0a; x00; x0b; x01]
    = Some (Fail (New "input did not contain a valid PEM encoded block"))
  ∧ ∀ fuel', 3 ≤ fuel' →
      readNebulaRoots (codec := plainCodec) fuel' "cut.pem"
      = Some ([], Some (Wrap
                 (New "input did not contain a valid PEM encoded block")
                 ("error reading " +:+ "cut.pem")))
      ∧ cause_of (Wrap
                 (New "input did not contain a valid PEM encoded block")
                 ("error reading " +:+ "cut.pem"))
        = Some (New "input did not contain a valid PEM encoded block").
Proof.
  split; [reflexivity|]. split; [reflexivity|].
  apply (readNebulaRoots_decode_failure (codec := plainCodec)
           3 "cut.pem" [x01; x0a; x00; x0b; x01]); reflexivity.
Defined.

Lemma readNebulaRoots_no_CA_witness :
  ReadFile (Codec := plainCodec) "leaves.pem" = Ok [x00; x0a; x00; x0b]
  ∧ splitAll (codec := plainCodec) 2 [x00; x0a; x00; x0b]
    = Some (Ok [leaf x0a; leaf x0b])
  ∧ (∀ fuel', 2 ≤ fuel' →
       readNebulaRoots (codec := plainCodec) fuel' "leaves.pem"
       = Some ([], Some (New ("error reading " +:+ "leaves.pem"
                              +:+ ": no CA certificates found"))))
  ∧ (∀ fuel' rootFile',
       readNebulaRoots (codec := plainCodec) fuel' rootFile'
       ≠ Some ([], None)).
Proof.
  split; [reflexivity|]. split; [reflexivity|].
  apply (readNebulaRoots_no_CA (codec := plainCodec)
           2 "leaves.pem" [x00; x0a; x00; x0b] [leaf x0a; leaf x0b]);
    [reflexivity|reflexivity|].
  repeat constructor.
Defined.

Lemma readNebulaRoots_marshal_failure_witness :
  ReadFile (Codec := brittleCodec) "ff.pem" = Ok [x01; x0a; x01; xff]
  ∧ splitAll (codec := brittleCodec) 2 [x01; x0a; x01; xff]
    = Some (Ok [ca x0a; ca xff])
  ∧ MarshalToPEM (Codec := brittleCodec) (ca x0a) = Ok [x01; x0a]
  ∧ MarshalToPEM (Codec := brittleCodec) (ca xff)
    = Fail (New "cannot marshal")
  ∧ ∀ fuel', 2 ≤ fuel' →
      readNebulaRoots (codec := brittleCodec) fuel' "ff.pem"
      = Some ([], Some (Wrap (New "cannot marshal")
                          "error marshaling certificate"))
      ∧ cause_of (Wrap (New "cannot marshal") "error marshaling certificate")
        = Some (New "cannot marshal").
Proof.
  split; [reflexivity|]. split; [reflexivity|].
  split; [reflexivity|]. split; [reflexivity|].
  apply (readNebulaRoots_marshal_failure (codec := brittleCodec)
           2 "ff.pem" [x01; x0a; x01; xff] [ca x0a; ca xff]
           [ca x0a] (ca xff) [] (New "cannot marshal"));
    [reflexivity|reflexivity|reflexivity| |reflexivity].
  constructor; [|constructor]. exists [x01; x0a]. reflexivity.
Defined.

End LoaderRuns.

End NebulaFacts.


(** ** [newCRUDClient] *)

Module ClientFacts.
Import Client.

Section SelectorFacts.
Context {CliContext Provisioner AdminClient ConfigClient : Type}.
Context {collab : Collaborators CliContext Provisioner AdminClient ConfigClient}.

Local Ltac run_selector :=
  unfold newCRUDClient, bind, call, ret, isNotExist; simpl.

(** C1. When the file exists and loads with the admin API enabled and a
    non-empty list of provisioners, [newCRUDClient] returns a nil client and
    the error that says the list must be empty, after a call to [os.Stat]
    and one to [LoadConfiguration] and no other call: the admin client is
    not built and [cliCtx] is not used. *)
Theorem newCRUDClient_conflict (cliCtx : CliContext) (configFile : string)
    (config : Config Provisioner) :
  Stat configFile = None →
  LoadConfiguration configFile = Ok config →
  EnableAdmin (AuthorityConfig config) = true →
  Provisioners (AuthorityConfig config) ≠ [] →
  newCRUDClient cliCtx configFile
  = ((None, Some (New "when 'enableAdmin' attribute set to 'true', provisioners list in ca.json must be empty")),
     [CallStat configFile; CallLoadConfiguration configFile])
  ∧ Forall (λ c, touchesAdmin c = false) (snd (newCRUDClient cliCtx configFile)).
Proof.
  intros Hstat Hload Hadmin Hprov.
  assert (newCRUDClient cliCtx configFile
          = ((None, Some (New "when 'enableAdmin' attribute set to 'true', provisioners list in ca.json must be empty")),
             [CallStat configFile; CallLoadConfiguration configFile])) as Hrun.
  { run_selector. rewrite Hstat. simpl. rewrite Hload, Hadmin.
    destruct (Provisioners (AuthorityConfig config)); done. }
  split; [done|]. rewrite Hrun. simpl. by repeat constructor.
Qed.

(** C6. When [os.Stat] fails with an error that is [os.ErrNotExist], and
    when the file loads with the admin API enabled and no provisioner,
    [newCRUDClient] returns the admin-API implementation of the interface,
    holding the pointer that [NewAdminClient(cliCtx)] returned, beside the
    error that call returned; when the file loads with the admin API
    disabled, it returns the file implementation, holding the pointer that
    [newAdminAPIDisabledClient] returned for the loaded configuration and the
    path, beside that call's error. The interface value is never nil on
    these three paths; when the constructor gives a client and a nil error,
    that client is returned with a nil error. *)
Theorem newCRUDClient_selects (cliCtx : CliContext) (configFile : string) :
  (isNotExist (Stat configFile) = true →
     newCRUDClient cliCtx configFile
     = ((Some (AdminBacked (fst (NewAdminClient cliCtx))),
         snd (NewAdminClient cliCtx)),
        [CallStat configFile; CallNewAdminClient cliCtx])
     ∧ ∀ client, NewAdminClient cliCtx = (Some client, None) →
         fst (newCRUDClient cliCtx configFile)
         = (Some (AdminBacked (Some client)), None))
  ∧ (∀ config,
       Stat configFile = None →
       LoadConfiguration configFile = Ok config →
       EnableAdmin (AuthorityConfig config) = true →
       Provisioners (AuthorityConfig config) = [] →
       newCRUDClient cliCtx configFile
       = ((Some (AdminBacked (fst (NewAdminClient cliCtx))),
           snd (NewAdminClient cliCtx)),
          [CallStat configFile; CallLoadConfiguration configFile;
           CallNewAdminClient cliCtx])
       ∧ ∀ client, NewAdminClient cliCtx = (Some client, None) →
           fst (newCRUDClient cliCtx configFile)
           = (Some (AdminBacked (Some client)), None))
  ∧ (∀ config,
       Stat configFile = None →
       LoadConfiguration configFile = Ok config →
       EnableAdmin (AuthorityConfig config) = false →
       newCRUDClient cliCtx configFile
       = ((Some (FileBacked
                   (fst (newAdminAPIDisabledClient config configFile))),
           snd (newAdminAPIDisabledClient config configFile)),
          [CallStat configFile; CallLoadConfiguration configFile;
           CallNewAdminAPIDisabledClient config configFile])
       ∧ ∀ client,
           newAdminAPIDisabledClient config configFile = (Some client, None) →
           fst (newCRUDClient cliCtx configFile)
           = (Some (FileBacked (Some client)), None)).
Proof.
  split; [|split].
  - intros Habsent.
    assert (newCRUDClient cliCtx configFile
            = ((Some (AdminBacked (fst (NewAdminClient cliCtx))),
                snd (NewAdminClient cliCtx)),
               [CallStat configFile; CallNewAdminClient cliCtx])) as Hrun.
    { run_selector. unfold isNotExist in Habsent. by rewrite Habsent. }
    split; [done|]. intros client Hnew. rewrite Hrun. simpl.
    by rewrite Hnew.
  - intros config Hstat Hload Hadmin Hprov.
    assert (newCRUDClient cliCtx configFile
            = ((Some (AdminBacked (fst (NewAdminClient cliCtx))),
                snd (NewAdminClient cliCtx)),
               [CallStat configFile; CallLoadConfiguration configFile;
                CallNewAdminClient cliCtx])) as Hrun.
    { run_selector. rewrite Hstat. simpl. by rewrite Hload, Hadmin, Hprov. }
    split; [done|]. intros client Hnew. rewrite Hrun. simpl.
    by rewrite Hnew.
  - intros config Hstat Hload Hadmin.
    assert (newCRUDClient cliCtx configFile
            = ((Some (FileBacked
                        (fst (newAdminAPIDisabledClient config configFile))),
                snd (newAdminAPIDisabledClient config configFile)),
               [CallStat configFile; CallLoadConfiguration configFile;
                CallNewAdminAPIDisabledClient config configFile])) as Hrun.
    { run_selector. rewrite Hstat. simpl. by rewrite Hload, Hadmin. }
    split; [done|]. intros client Hnew. rewrite Hrun. simpl.
    by rewrite Hnew.
Qed.

(** C7. When the file exists but does not load, [newCRUDClient] returns a
    nil client and the error that wraps the cause under "error loading
    configuration"; when [os.Stat] fails with an error that is not
    [os.ErrNotExist], it returns a nil client and [errs.FileError] of that
    error and the path, and does not try to load the file. *)
Theorem newCRUDClient_failures (cliCtx : CliContext) (configFile : string) :
  (∀ cause,
     Stat configFile = None →
     LoadConfiguration configFile = Fail cause →
     newCRUDClient cliCtx configFile
     = ((None, Some (Wrap cause "error loading configuration")),
        [CallStat configFile; CallLoadConfiguration configFile]))
  ∧ (∀ err,
       Stat configFile = Some err →
       IsNotExist err = false →
       newCRUDClient cliCtx configFile
       = ((None, Some (FileError err configFile)), [CallStat configFile])).
Proof.
  split.
  - intros cause Hstat Hload. run_selector. rewrite Hstat. simpl.
    by rewrite Hload.
  - intros err Hstat Hnot. run_selector. rewrite Hstat, Hnot. done.
Qed.

End SelectorFacts.

Section SelectorRuns.
Import Fixtures.
Local Existing Instance toyCollaborators.

Lemma newCRUDClient_conflict_witness :
  newCRUDClient (collab := toyCollaborators) "ctx" "both.json"
  = ((None, Some (New "when 'enableAdmin' attribute set to 'true', provisioners list in ca.json must be empty")),
     [CallStat "both.json"; CallLoadConfiguration "both.json"])
  ∧ Forall (λ c, touchesAdmin c = false)
      (snd (newCRUDClient (collab := toyCollaborators) "ctx" "both.json")).
Proof.
  apply (newCRUDClient_conflict (collab := toyCollaborators) "ctx" "both.json"
           {| AuthorityConfig :=
                {| EnableAdmin := true; Provisioners := ["jwk"] |} |});
    [reflexivity|reflexivity|reflexivity|discriminate].
Defined.

(** The three outcomes on the toy directory, no file, the admin API
    enabled with no provisioner, the admin API disabled, and the first of
    them when the admin client cannot be built: the interface value is
    still the admin-API implementation, around a nil pointer. *)
Lemma newCRUDClient_selects_witness :
  newCRUDClient (collab := toyCollaborators) "ctx" "missing.json"
  = ((Some (AdminBacked (Some "ctx")), None),
     [CallStat "missing.json"; CallNewAdminClient "ctx"])
  ∧ newCRUDClient (collab := toyCollaborators) "ctx" "admin.json"
    = ((Some (AdminBacked (Some "ctx")), None),
       [CallStat "admin.json"; CallLoadConfiguration "admin.json";
        CallNewAdminClient "ctx"])
  ∧ fst (newCRUDClient (collab := toyCollaborators) "ctx" "ca.json")
    = (Some (FileBacked
               (Some ({| AuthorityConfig :=
                           {| EnableAdmin := false; Provisioners := ["jwk"] |} |},
                      "ca.json"))), None)
  ∧ newCRUDClient (collab := OfflineFixtures.offlineCollaborators)
      "ctx" "missing.json"
    = ((Some (AdminBacked None), Some (New "'--ca-url' flag is required")),
       [CallStat "missing.json"; CallNewAdminClient "ctx"]).
Proof.
  split; [|split; [|split]].
  - destruct (newCRUDClient_selects (collab := toyCollaborators)
                "ctx" "missing.json") as [Habsent _].
    destruct Habsent as [Hrun _]; [reflexivity|]. exact Hrun.
  - destruct (newCRUDClient_selects (collab := toyCollaborators)
                "ctx" "admin.json") as (_ & Henabled & _).
    destruct (Henabled {| AuthorityConfig :=
                            {| EnableAdmin := true; Provisioners := [] |} |})
      as [Hrun _]; [reflexivity..|]. exact Hrun.
  - destruct (newCRUDClient_selects (collab := toyCollaborators)
                "ctx" "ca.json") as (_ & _ & Hdisabled).
    destruct (Hdisabled {| AuthorityConfig :=
                             {| EnableAdmin := false; Provisioners := ["jwk"] |} |})
      as [_ Hclient]; [reflexivity..|].
    apply Hclient. reflexivity.
  - destruct (newCRUDClient_selects
                (collab := OfflineFixtures.offlineCollaborators)
                "ctx" "missing.json") as [Habsent _].
    destruct Habsent as [Hrun _]; [reflexivity|]. exact Hrun.
Defined.

(** The two failures on the toy directory: a file that does not parse, a
    file that cannot be examined. *)
Lemma newCRUDClient_failures_witness :
  newCRUDClient (collab := toyCollaborators) "ctx" "broken.json"
  = ((None, Some (Wrap (New "unexpected end of JSON input")
                    "error loading configuration")),
     [CallStat "broken.json"; CallLoadConfiguration "broken.json"])
  ∧ newCRUDClient (collab := toyCollaborators) "ctx" "locked.json"
    = ((None, Some (FileError (New "permission denied") "locked.json")),
       [CallStat "locked.json"]).
Proof.
  split.
  - destruct (newCRUDClient_failures (collab := toyCollaborators)
                "ctx" "broken.json") as [Hload _].
    apply Hload; reflexivity.
  - destruct (newCRUDClient_failures (collab := toyCollaborators)
                "ctx" "locked.json") as [_ Hstat].
    apply Hstat; reflexivity.
Defined.

End SelectorRuns.

End ClientFacts.


(** * Further properties *)

(** ** [removeElements]: bounds, frame, and the result as a multiset *)

Module SlicesMore.
Import Slices SliceBounds SlicesFacts.

Lemma remove_one_checked_wf (s : slice) (rem : string) :
  wf s → remove_one_checked s rem = Some (remove_one s rem).
Proof.
  intros Hwf. unfold remove_one_checked, remove_one.
  destruct (range_find rem (view s) 0) as [i|] eqn:Hfind; [|done].
  destruct (range_find_in_range s rem i Hwf Hfind) as (Hlt & Hcap & Hpos).
  destruct (lookup_lt_is_Some_2 (arr s) (len s - 1) Hcap) as [y Hy].
  unfold swap_remove_checked, swap_remove, index_read, index_write, reslice.
  rewrite decide_True by done. rewrite decide_True by lia.
  rewrite Hy. simpl. unfold wf in Hwf.
  rewrite decide_True by (split; lia). simpl.
  rewrite decide_True by (rewrite length_insert; lia). done.
Qed.

Lemma remove_all_checked_wf (rems : list string) (s : slice) :
  wf s → remove_all_checked rems s = Some (fold_left remove_one rems s).
Proof.
  revert s. induction rems as [|rem rems IH]; intros s Hwf; simpl; [done|].
  rewrite remove_one_checked_wf by done. simpl.
  apply IH. by apply remove_one_wf.
Qed.

Lemma remove_one_frame (s : slice) (rem : string) (n : nat) :
  wf s → len s ≤ n →
  len (remove_one s rem) ≤ len s
  ∧ length (arr (remove_one s rem)) = length (arr s)
  ∧ drop n (arr (remove_one s rem)) = drop n (arr s).
Proof.
  intros Hwf Hn. unfold remove_one.
  destruct (range_find rem (view s) 0) as [i|] eqn:Hfind; [|done].
  destruct (range_find_in_range s rem i Hwf Hfind) as (Hlt & _ & _).
  unfold swap_remove. simpl.
  split; [lia|]. split; [by rewrite length_insert|].
  apply drop_insert_lt. lia.
Qed.

Lemma fold_remove_one_frame (rems : list string) (s : slice) (n : nat) :
  wf s → len s ≤ n →
  len (fold_left remove_one rems s) ≤ len s
  ∧ length (arr (fold_left remove_one rems s)) = length (arr s)
  ∧ drop n (arr (fold_left remove_one rems s)) = drop n (arr s).
Proof.
  revert s. induction rems as [|rem rems IH]; intros s Hwf Hn; simpl; [done|].
  destruct (remove_one_frame s rem n Hwf Hn) as (Hlen & Hcap & Hdrop).
  destruct (IH (remove_one s rem)) as (Hlen' & Hcap' & Hdrop');
    [by apply remove_one_wf|lia|].
  split; [lia|]. split; congruence.
Qed.

Lemma matched_nil_iff (rems : list string) (s : slice) :
  matched s rems = [] ↔ ∀ x, x ∈ rems → x ∉ view s.
Proof.
  revert s. induction rems as [|rem rems IH]; intros s; simpl.
  - split; [|done]. by intros _ x ?%elem_of_nil.
  - destruct (range_find rem (view s) 0) as [i|] eqn:Hfind.
    + split; [done|]. intros Hnone. exfalso.
      apply (Hnone rem); [by left|].
      apply range_find_Some in Hfind as (j & _ & Hj & _).
      by eapply list_elem_of_lookup_2.
    + apply range_find_None in Hfind. rewrite IH. split.
      * intros Hrest x [->|Hin]%elem_of_cons; [done|by apply Hrest].
      * intros Hall x Hin. apply Hall. by right.
Qed.

Lemma occurrences_nil_iff (l : list string) :
  l = [] ↔ ∀ x, occurrences x l = 0.
Proof.
  split; [by intros ->|].
  destruct l as [|y l]; [done|]. intros Hall. specialize (Hall y).
  rewrite occurrences_cons, decide_True in Hall by done. lia.
Qed.

Lemma occurrences_elem (x : string) (l : list string) :
  0 < occurrences x l → x ∈ l.
Proof.
  intros Hpos. destruct (decide (x ∈ l)) as [|Hnot]; [done|].
  rewrite occurrences_zero in Hpos by done. lia.
Qed.

(** Two lists in which every value occurs equally often are equal up to
    order. *)
Lemma occurrences_Permutation (l k : list string) :
  (∀ x, occurrences x l = occurrences x k) → l ≡ₚ k.
Proof.
  revert k. induction l as [|a l IH]; intros k Hall.
  - symmetry in Hall. by apply occurrences_nil_iff in Hall as ->.
  - assert (a ∈ k) as (k' & Hk)%elem_of_Permutation.
    { apply occurrences_elem. rewrite <- Hall, occurrences_cons.
      rewrite decide_True by done. lia. }
    rewrite Hk. constructor. apply IH. intros x.
    specialize (Hall x).
    rewrite (occurrences_perm x k (a :: k') Hk), !occurrences_cons in Hall.
    lia.
Qed.

(** X1. On a well-formed slice no index expression of [removeElements]
    leaves its range: run under the checks of the Go runtime, the function
    does not panic and returns what the unchecked run returns. *)
Theorem removeElements_no_panic (s : slice) (rems : list string) :
  wf s → removeElements_checked s rems = Some (removeElements s rems).
Proof.
  intros Hwf. unfold removeElements_checked, removeElements.
  destruct (len s =? 0); [done|]. by apply remove_all_checked_wf.
Qed.

Lemma removeElements_no_panic_witness :
  removeElements_checked (of_list ["a"; "b"; "a"; "c"]) ["a"; "d"; "c"]
  = Some (removeElements (of_list ["a"; "b"; "a"; "c"]) ["a"; "d"; "c"]).
Proof.
  apply (removeElements_no_panic (of_list ["a"; "b"; "a"; "c"]) ["a"; "d"; "c"]).
  unfold wf. simpl. lia.
Defined.

(** X2. [removeElements] works in place and inside the slice it was
    given: the result is well formed, shares a backing array of the same
    size, is never longer than the argument, and the backing array is as it
    was from index [len(list)] on, so elements past the slice's length are
    never written. *)
Theorem removeElements_in_place (s : slice) (rems : list string) :
  wf s →
  wf (removeElements s rems)
  ∧ len (removeElements s rems) ≤ len s
  ∧ length (arr (removeElements s rems)) = length (arr s)
  ∧ drop (len s) (arr (removeElements s rems)) = drop (len s) (arr s).
Proof.
  intros Hwf. rewrite removeElements_fold.
  split; [by apply fold_remove_one_wf|].
  by apply fold_remove_one_frame.
Qed.

Lemma removeElements_in_place_witness :
  wf (removeElements (Slice ["a"; "b"; "c"; "z"] 3) ["a"; "c"])
  ∧ len (removeElements (Slice ["a"; "b"; "c"; "z"] 3) ["a"; "c"])
    ≤ len (Slice ["a"; "b"; "c"; "z"] 3)
  ∧ length (arr (removeElements (Slice ["a"; "b"; "c"; "z"] 3) ["a"; "c"]))
    = length (arr (Slice ["a"; "b"; "c"; "z"] 3))
  ∧ drop (len (Slice ["a"; "b"; "c"; "z"] 3))
      (arr (removeElements (Slice ["a"; "b"; "c"; "z"] 3) ["a"; "c"]))
    = drop (len (Slice ["a"; "b"; "c"; "z"] 3))
        (arr (Slice ["a"; "b"; "c"; "z"] 3)).
Proof.
  apply (removeElements_in_place (Slice ["a"; "b"; "c"; "z"] 3) ["a"; "c"]).
  unfold wf. simpl. lia.
Defined.

(** X3. [removeElements] returns its argument untouched, backing array
    included, exactly when no entry of the removal list is an element of
    the slice. *)
Theorem removeElements_unchanged_iff (s : slice) (rems : list string) :
  wf s →
  removeElements s rems = s ↔ ∀ x, x ∈ rems → x ∉ view s.
Proof.
  intros Hwf. rewrite removeElements_fold, <- matched_nil_iff.
  pose proof (fold_remove_one_len rems s Hwf) as Hlen.
  split.
  - intros Heq. rewrite Heq in Hlen.
    destruct (matched s rems); [done|simpl in Hlen; lia].
  - intros Hnil. clear Hlen. revert s Hwf Hnil.
    induction rems as [|rem rems IH]; intros s Hwf Hnil; simpl in *; [done|].
    destruct (range_find rem (view s) 0) as [i|] eqn:Hfind; [done|].
    rewrite (remove_one_missing s rem Hfind). by apply IH.
Qed.

Lemma removeElements_unchanged_iff_witness :
  removeElements (of_list ["a"; "b"]) ["c"; "d"] = of_list ["a"; "b"]
  ↔ ∀ x, x ∈ ["c"; "d"] → x ∉ view (of_list ["a"; "b"]).
Proof.
  apply (removeElements_unchanged_iff (of_list ["a"; "b"]) ["c"; "d"]).
  unfold wf. simpl. lia.
Defined.

(** X4. The result of [removeElements] is empty exactly when every value
    occurs in the removal list at least as often as in the slice; in
    particular removing a list from itself leaves nothing. *)
Theorem removeElements_empties_iff (s : slice) (rems : list string) :
  wf s →
  (view (removeElements s rems) = []
   ↔ ∀ x, occurrences x (view s) ≤ occurrences x rems)
  ∧ (rems ≡ₚ view s → len (removeElements s rems) = 0).
Proof.
  intros Hwf. rewrite removeElements_fold.
  assert (view (fold_left remove_one rems s) = []
          ↔ ∀ x, occurrences x (view s) ≤ occurrences x rems) as Hiff.
  { rewrite occurrences_nil_iff. split; intros Hall x; specialize (Hall x);
      rewrite fold_remove_one_occurrences in * by done; lia. }
  split; [done|]. intros Hperm.
  rewrite <- view_length by (by apply fold_remove_one_wf).
  apply proj2 in Hiff. rewrite Hiff; [done|].
  intros x. by rewrite (occurrences_perm x rems (view s) Hperm).
Qed.

Lemma removeElements_empties_iff_witness :
  (view (removeElements (of_list ["a"; "b"; "a"]) ["b"; "a"; "a"; "c"]) = []
   ↔ ∀ x, occurrences x (view (of_list ["a"; "b"; "a"]))
          ≤ occurrences x ["b"; "a"; "a"; "c"])
  ∧ (["b"; "a"; "a"; "c"] ≡ₚ view (of_list ["a"; "b"; "a"]) →
     len (removeElements (of_list ["a"; "b"; "a"]) ["b"; "a"; "a"; "c"]) = 0).
Proof.
  apply (removeElements_empties_iff (of_list ["a"; "b"; "a"])
           ["b"; "a"; "a"; "c"]).
  unfold wf. simpl. lia.
Defined.

(** X5. Up to the order of the result, [removeElements] depends neither
    on the order of the slice nor on the order of the removal list:
    reordering either gives a reordering of the same result. *)
Theorem removeElements_order_irrelevant (s s' : slice) (rems rems' : list string) :
  wf s → wf s' → view s ≡ₚ view s' → rems ≡ₚ rems' →
  view (removeElements s rems) ≡ₚ view (removeElements s' rems').
Proof.
  intros Hwf Hwf' Hperm Hrems. rewrite !removeElements_fold.
  apply occurrences_Permutation. intros x.
  rewrite !fold_remove_one_occurrences by done.
  by rewrite (occurrences_perm x _ _ Hperm), (occurrences_perm x _ _ Hrems).
Qed.

Lemma removeElements_order_irrelevant_witness :
  view (removeElements (of_list ["a"; "b"; "c"; "d"]) ["a"; "c"])
  ≡ₚ view (removeElements (of_list ["d"; "c"; "b"; "a"]) ["c"; "a"]).
Proof.
  apply (removeElements_order_irrelevant
           (of_list ["a"; "b"; "c"; "d"]) (of_list ["d"; "c"; "b"; "a"])
           ["a"; "c"] ["c"; "a"]).
  - unfold wf. simpl. lia.
  - unfold wf. simpl. lia.
  - unfold view. simpl. solve_Permutation.
  - apply perm_swap.
Defined.

End SlicesMore.


(** ** [readNebulaRoots]: termination, and what a result tells *)

Module NebulaMore.
Import Nebula NebulaFacts.

Section LoaderMore.
Context {Cert : Type} {codec : Codec Cert}.

(** The function in terms of the splitter, for every file and fuel. *)
Lemma readNebulaRoots_cases (fuel : nat) (rootFile : string) :
  readNebulaRoots fuel rootFile =
  match ReadFile rootFile with
  | Fail err => Some ([], Some err)
  | Ok b =>
      match splitAll fuel b with
      | None => None
      | Some (Fail cause) =>
          Some ([], Some (Wrap cause ("error reading " +:+ rootFile)))
      | Some (Ok decoded) => Some (trustRootsOf rootFile decoded)
      end
  end.
Proof.
  destruct (ReadFile rootFile) as [b|err] eqn:Hread.
  - destruct (splitAll fuel b) as [[decoded|cause]|] eqn:Hsplit.
    + by apply (readNebulaRoots_decoded fuel rootFile b).
    + unfold readNebulaRoots. by rewrite Hread, decodeLoop_splitAll, Hsplit.
    + unfold readNebulaRoots. by rewrite Hread, decodeLoop_splitAll, Hsplit.
  - unfold readNebulaRoots. by rewrite Hread.
Qed.

(** When the decoder consumes input, a fuel of the buffer's length is
    enough for the splitter. *)
Lemma splitAll_enough (fuel : nat) (b : bytes) :
  (∀ b' crt rest, UnmarshalNebulaCertificateFromPEM b' = Ok (crt, rest) →
                  length rest < length b') →
  length b ≤ fuel → ∃ r, splitAll fuel b = Some r.
Proof.
  intros Hconsumes. revert b.
  induction fuel as [|fuel IH]; intros [|c b] Hlen; simpl in *;
    try (by eauto); try lia.
  destruct (UnmarshalNebulaCertificateFromPEM (c :: b)) as [[crt rest]|err]
    eqn:Hun; [|by eauto].
  apply Hconsumes in Hun. simpl in Hun.
  destruct (IH rest) as [[decoded|cause] ->]; [lia|by eauto..].
Qed.

Lemma encodeAll_Forall2 (certs : list Cert) (pems : list bytes) :
  encodeAll certs = Ok pems →
  Forall2 (λ crt pem, MarshalToPEM crt = Ok pem) certs pems.
Proof.
  revert pems. induction certs as [|crt certs IH]; intros pems; simpl.
  - intros [= <-]. constructor.
  - destruct (MarshalToPEM crt) as [pem|cause] eqn:Hpem; [|done].
    destruct (encodeAll certs) as [pems'|cause]; [|done].
    intros [= <-]. constructor; [done|by apply IH].
Qed.

Lemma encodeAll_Fail (certs : list Cert) (cause : error) :
  encodeAll certs = Fail cause →
  ∃ crt, crt ∈ certs ∧ MarshalToPEM crt = Fail cause.
Proof.
  induction certs as [|crt certs IH]; simpl; [done|].
  destruct (MarshalToPEM crt) as [pem|cause'] eqn:Hpem.
  - destruct (encodeAll certs) as [pems'|cause']; [done|].
    intros [= ->]. destruct IH as (crt' & Hin & Hfail); [done|].
    exists crt'. split; [by right|done].
  - intros [= ->]. exists crt. split; [by left|done].
Qed.

(** X6. When every successful decoding leaves a rest shorter than its
    input, [readNebulaRoots] returns: there is one result that the function
    gives for every fuel from the length of the file's contents on (and for
    every fuel when the file cannot be read). *)
Theorem readNebulaRoots_returns (rootFile : string) :
  (∀ b crt rest, UnmarshalNebulaCertificateFromPEM b = Ok (crt, rest) →
                 length rest < length b) →
  ∃ r, ∀ fuel, (∀ b, ReadFile rootFile = Ok b → length b ≤ fuel) →
               readNebulaRoots fuel rootFile = Some r.
Proof.
  intros Hconsumes.
  destruct (ReadFile rootFile) as [b|err] eqn:Hread.
  - destruct (splitAll_enough (length b) b Hconsumes) as [r0 Hsplit]; [done|].
    assert (∃ r, readNebulaRoots (length b) rootFile = Some r) as [r Hr].
    { rewrite readNebulaRoots_cases, Hread, Hsplit.
      destruct r0; by eauto. }
    exists r. intros fuel Hfuel.
    by rewrite (readNebulaRoots_fuel (length b) fuel rootFile b r0)
      by (done || by apply Hfuel).
  - exists ([], Some err). intros fuel _.
    by rewrite readNebulaRoots_cases, Hread.
Qed.

(** X7. Whatever [readNebulaRoots] returns is either a non-empty list
    with a nil error or a nil list with an error: never roots beside an
    error, never a success without roots. *)
Theorem readNebulaRoots_result_shape (fuel : nat) (rootFile : string)
    (roots : list bytes) (err : option error) :
  readNebulaRoots fuel rootFile = Some (roots, err) →
  match err with
  | None => roots ≠ []
  | Some _ => roots = []
  end.
Proof.
  rewrite readNebulaRoots_cases.
  destruct (ReadFile rootFile) as [b|e]; [|by intros [= <- <-]].
  destruct (splitAll fuel b) as [[decoded|cause]|]; [|by intros [= <- <-]|done].
  unfold trustRootsOf.
  destruct (filter _ decoded) as [|crt cas]; [by intros [= <- <-]|].
  destruct (encodeAll (crt :: cas)) as [pems|cause] eqn:Henc;
    [|by intros [= <- <-]].
  intros [= <- <-]. apply encodeAll_length in Henc. by destruct pems.
Qed.

(** X8. A success of [readNebulaRoots] means that the file was read, that
    its whole buffer decoded, and that the roots are, one for one and in
    order, the PEM encodings of the certificate authorities decoded from
    it. *)
Theorem readNebulaRoots_success_inv (fuel : nat) (rootFile : string)
    (roots : list bytes) :
  readNebulaRoots fuel rootFile = Some (roots, None) →
  ∃ b decoded,
    ReadFile rootFile = Ok b
    ∧ splitAll fuel b = Some (Ok decoded)
    ∧ Forall2 (λ crt pem, MarshalToPEM crt = Ok pem)
        (filter (λ crt, IsCA crt = true) decoded) roots.
Proof.
  rewrite readNebulaRoots_cases.
  destruct (ReadFile rootFile) as [b|e] eqn:Hread; [|done].
  destruct (splitAll fuel b) as [[decoded|cause]|] eqn:Hsplit; [|done..].
  unfold trustRootsOf. intros Hrun. exists b, decoded.
  split; [done|]. split; [done|].
  destruct (filter _ decoded) as [|crt cas]; [done|].
  destruct (encodeAll (crt :: cas)) as [pems|cause] eqn:Henc; [|done].
  injection Hrun as <-. by apply encodeAll_Forall2.
Qed.

(** X9. An error of [readNebulaRoots] has one of four origins: it is the
    error of [utils.ReadFile] itself, unwrapped; or it wraps the cause of a
    block that failed to decode; or it is the "no CA certificates found"
    error and the buffer decoded into certificates none of which is a
    certificate authority; or it wraps the cause with which a decoded
    certificate authority failed to re-encode. *)
Theorem readNebulaRoots_error_inv (fuel : nat) (rootFile : string)
    (roots : list bytes) (e : error) :
  readNebulaRoots fuel rootFile = Some (roots, Some e) →
  ReadFile rootFile = Fail e
  ∨ (∃ b cause,
       ReadFile rootFile = Ok b ∧ splitAll fuel b = Some (Fail cause)
       ∧ e = Wrap cause ("error reading " +:+ rootFile))
  ∨ (∃ b decoded,
       ReadFile rootFile = Ok b ∧ splitAll fuel b = Some (Ok decoded)
       ∧ Forall (λ crt, IsCA crt = false) decoded
       ∧ e = New ("error reading " +:+ rootFile
                  +:+ ": no CA certificates found"))
  ∨ (∃ b decoded crt cause,
       ReadFile rootFile = Ok b ∧ splitAll fuel b = Some (Ok decoded)
       ∧ crt ∈ decoded ∧ IsCA crt = true
       ∧ MarshalToPEM crt = Fail cause
       ∧ e = Wrap cause "error marshaling certificate").
Proof.
  rewrite readNebulaRoots_cases.
  destruct (ReadFile rootFile) as [b|e'] eqn:Hread;
    [|intros [= <- <-]; by left].
  destruct (splitAll fuel b) as [[decoded|cause]|] eqn:Hsplit; [| |done].
  - unfold trustRootsOf.
    destruct (filter (λ crt, IsCA crt = true) decoded) as [|crt cas] eqn:Hkeep.
    + intros [= <- <-]. right. right. left. exists b, decoded.
      split; [done|]. split; [done|]. split; [|done].
      apply Forall_forall. intros crt Hin.
      destruct (IsCA crt) eqn:Hca; [|done].
      assert (crt ∈ filter (λ crt, IsCA crt = true) decoded) as Hkept
        by (by apply list_elem_of_filter).
      rewrite Hkeep in Hkept. by apply elem_of_nil in Hkept.
    + destruct (encodeAll (crt :: cas)) as [pems|cause] eqn:Henc; [done|].
      intros [= <- <-]. right. right. right.
      apply encodeAll_Fail in Henc as (crt' & Hin & Hfail).
      rewrite <- Hkeep in Hin. apply list_elem_of_filter in Hin as [Hca Hin].
      by exists b, decoded, crt', cause.
  - intros [= <- <-]. right. left. by exists b, cause.
Qed.

End LoaderMore.

Section LoaderMoreRuns.
Import Fixtures.

(** The toy decoder consumes the two bytes of a block. *)
Lemma toyUnmarshal_consumes (b : bytes) (crt : ToyCert) (rest : bytes) :
  toyUnmarshal b = Ok (crt, rest) → length rest < length b.
Proof.
  destruct b as [|tag [|serial b]]; simpl.
  - done.
  - by destruct tag.
  - destruct tag; intros [= <- <-]; simpl; lia.
Qed.

Lemma readNebulaRoots_returns_witness :
  ∃ r, ∀ fuel,
    (∀ b, ReadFile (Codec := plainCodec) "chain.pem" = Ok b → length b ≤ fuel) →
    readNebulaRoots (codec := plainCodec) fuel "chain.pem" = Some r.
Proof.
  apply (readNebulaRoots_returns (codec := plainCodec) "chain.pem").
  exact toyUnmarshal_consumes.
Defined.

Lemma readNebulaRoots_result_shape_witness :
  readNebulaRoots (codec := plainCodec) 3 "chain.pem"
  = Some ([[x01; x0a]; [x01; x0c]], None)
  ∧ [[x01; x0a]; [x01; x0c]] ≠ ([] : list bytes)
  ∧ readNebulaRoots (codec := plainCodec) 3 "cut.pem"
    = Some ([], Some (Wrap
               (New "input did not contain a valid PEM encoded block")
               ("error reading " +:+ "cut.pem")))
  ∧ ([] : list bytes) = [].
Proof.
  split; [reflexivity|]. split.
  - apply (readNebulaRoots_result_shape (codec := plainCodec) 3 "chain.pem"
             [[x01; x0a]; [x01; x0c]] None).
    reflexivity.
  - split; [reflexivity|].
    apply (readNebulaRoots_result_shape (codec := plainCodec) 3 "cut.pem" []
             (Some (Wrap
                      (New "input did not contain a valid PEM encoded block")
                      ("error reading " +:+ "cut.pem")))).
    reflexivity.
Defined.

Lemma readNebulaRoots_success_inv_witness :
  ∃ b decoded,
    ReadFile (Codec := plainCodec) "chain.pem" = Ok b
    ∧ splitAll (codec := plainCodec) 3 b = Some (Ok decoded)
    ∧ Forall2 (λ crt pem, MarshalToPEM (Codec := plainCodec) crt = Ok pem)
        (filter (λ crt, IsCA (Codec := plainCodec) crt = true) decoded)
        [[x01; x0a]; [x01; x0c]].
Proof.
  apply (readNebulaRoots_success_inv (codec := plainCodec) 3 "chain.pem"
           [[x01; x0a]; [x01; x0c]]).
  reflexivity.
Defined.

Lemma readNebulaRoots_error_inv_witness :
  ReadFile (Codec := brittleCodec) "ff.pem" = Fail (Wrap (New "cannot marshal") "error marshaling certificate")
  ∨ (∃ b cause,
       ReadFile (Codec := brittleCodec) "ff.pem" = Ok b
       ∧ splitAll (codec := brittleCodec) 2 b = Some (Fail cause)
       ∧ Wrap (New "cannot marshal") "error marshaling certificate"
         = Wrap cause ("error reading " +:+ "ff.pem"))
  ∨ (∃ b decoded,
       ReadFile (Codec := brittleCodec) "ff.pem" = Ok b
       ∧ splitAll (codec := brittleCodec) 2 b = Some (Ok decoded)
       ∧ Forall (λ crt, IsCA (Codec := brittleCodec) crt = false) decoded
       ∧ Wrap (New "cannot marshal") "error marshaling certificate"
         = New ("error reading " +:+ "ff.pem"
                +:+ ": no CA certificates found"))
  ∨ (∃ b decoded crt cause,
       ReadFile (Codec := brittleCodec) "ff.pem" = Ok b
       ∧ splitAll (codec := brittleCodec) 2 b = Some (Ok decoded)
       ∧ crt ∈ decoded ∧ IsCA (Codec := brittleCodec) crt = true
       ∧ MarshalToPEM (Codec := brittleCodec) crt = Fail cause
       ∧ Wrap (New "cannot marshal") "error marshaling certificate"
         = Wrap cause "error marshaling certificate").
Proof.
  apply (readNebulaRoots_error_inv (codec := brittleCodec) 2 "ff.pem" []
           (Wrap (New "cannot marshal") "error marshaling certificate")).
  reflexivity.
Defined.

End LoaderMoreRuns.

End NebulaMore.


(** ** [newCRUDClient]: the calls it makes, and what a result tells *)

Module ClientMore.
Import Client ClientCalls.

Section SelectorMore.
Context {CliContext Provisioner AdminClient ConfigClient : Type}.
Context {collab : Collaborators CliContext Provisioner AdminClient ConfigClient}.

Local Ltac selector_cases cliCtx configFile :=
  unfold newCRUDClient, bind, call, ret, isNotExist, asCRUD;
  let err := fresh "err" in
  let cfg := fresh "cfg" in
  let cause := fresh "cause" in
  destruct (Stat configFile) as [err|] eqn:Hstat; simpl;
  [ destruct (IsNotExist err) eqn:Hnot; simpl
  | destruct (LoadConfiguration configFile) as [cfg|cause] eqn:Hload; simpl;
    [ destruct (EnableAdmin (AuthorityConfig cfg)) eqn:Hadmin; simpl;
      [ destruct (Provisioners (AuthorityConfig cfg)) as [|? ?] eqn:Hprov;
        simpl
      | ]
    | ] ].

(** X10. [newCRUDClient] begins with [os.Stat] on the given path; it reads
    the configuration exactly when [os.Stat] returned a nil error; it calls
    at most one constructor, and a constructor call is its last call. *)
Theorem newCRUDClient_call_order (cliCtx : CliContext) (configFile : string) :
  head (snd (newCRUDClient cliCtx configFile)) = Some (CallStat configFile)
  ∧ (existsb loadsConfig (snd (newCRUDClient cliCtx configFile)) = true
     ↔ Stat configFile = None)
  ∧ length (filter (λ c, buildsClient c = true)
              (snd (newCRUDClient cliCtx configFile))) ≤ 1
  ∧ (∀ c, c ∈ snd (newCRUDClient cliCtx configFile) → buildsClient c = true →
          last (snd (newCRUDClient cliCtx configFile)) = Some c).
Proof.
  selector_cases cliCtx configFile;
    (split; [done|]); (split; [done|]);
    (split; [simpl; lia|]); intros c Hin Hb;
    repeat (apply elem_of_cons in Hin as [->|Hin]); try done;
    by apply elem_of_nil in Hin.
Qed.

(** X11. The admin client is built exactly when the path does not exist, or
    the file loads with the admin API enabled and no provisioner; the client
    of the configuration file is built exactly when the file loads with the
    admin API disabled. *)
Theorem newCRUDClient_constructor_iff (cliCtx : CliContext)
    (configFile : string) :
  (existsb touchesAdmin (snd (newCRUDClient cliCtx configFile)) = true
   ↔ isNotExist (Stat configFile) = true
     ∨ ∃ config, Stat configFile = None
                 ∧ LoadConfiguration configFile = Ok config
                 ∧ EnableAdmin (AuthorityConfig config) = true
                 ∧ Provisioners (AuthorityConfig config) = [])
  ∧ (existsb buildsFileClient (snd (newCRUDClient cliCtx configFile)) = true
     ↔ ∃ config, Stat configFile = None
                 ∧ LoadConfiguration configFile = Ok config
                 ∧ EnableAdmin (AuthorityConfig config) = false).
Proof.
  selector_cases cliCtx configFile; rewrite ?Hnot;
    (split; split; try done);
    first [ by intros _; left
          | by intros _; right; eexists
          | by intros _; eexists
          | intros [?|(config & ? & ? & ? & ?)]; simplify_eq; congruence
          | intros (config & ? & ? & ?); simplify_eq; congruence ].
Qed.

(** X12. What [newCRUDClient] returns as its client tells the branch
    taken. A file implementation holds the pointer (nil or not) that
    [newAdminAPIDisabledClient] returned for a configuration that loaded
    with the admin API disabled, and comes with that call's error. An
    admin-API implementation holds the pointer that [NewAdminClient]
    returned for [cliCtx], comes with that call's error, and then the path
    does not exist or the configuration has the admin API enabled and no
    provisioner. The interface value is nil exactly when no constructor was
    called. *)
Theorem newCRUDClient_client_inv (cliCtx : CliContext) (configFile : string) :
  (∀ p,
     fst (fst (newCRUDClient cliCtx configFile)) = Some (FileBacked p) →
     ∃ config, Stat configFile = None
               ∧ LoadConfiguration configFile = Ok config
               ∧ EnableAdmin (AuthorityConfig config) = false
               ∧ p = fst (newAdminAPIDisabledClient config configFile)
               ∧ snd (fst (newCRUDClient cliCtx configFile))
                 = snd (newAdminAPIDisabledClient config configFile))
  ∧ (∀ p,
       fst (fst (newCRUDClient cliCtx configFile)) = Some (AdminBacked p) →
       p = fst (NewAdminClient cliCtx)
       ∧ snd (fst (newCRUDClient cliCtx configFile))
         = snd (NewAdminClient cliCtx)
       ∧ (isNotExist (Stat configFile) = true
          ∨ ∃ config, Stat configFile = None
                      ∧ LoadConfiguration configFile = Ok config
                      ∧ EnableAdmin (AuthorityConfig config) = true
                      ∧ Provisioners (AuthorityConfig config) = []))
  ∧ (fst (fst (newCRUDClient cliCtx configFile)) = None
     ↔ existsb buildsClient (snd (newCRUDClient cliCtx configFile)) = false).
Proof.
  selector_cases cliCtx configFile; rewrite ?Hnot;
    (split; [intros ptr Hp; simpl in Hp; try done
            |split; [intros ptr Hp; simpl in Hp; try done|done]]);
    simplify_eq;
    first [ by split; [|split; [|left]]
          | by split; [|split; [|right; eexists]]
          | by eexists ].
Qed.

(** X13. Without a constructor call [newCRUDClient] never reports
    success: it returns a nil client and a non-nil error. *)
Theorem newCRUDClient_local_failure (cliCtx : CliContext) (configFile : string) :
  existsb buildsClient (snd (newCRUDClient cliCtx configFile)) = false →
  fst (fst (newCRUDClient cliCtx configFile)) = None
  ∧ ∃ e, snd (fst (newCRUDClient cliCtx configFile)) = Some e.
Proof.
  selector_cases cliCtx configFile; intros Hnone; try done; by eauto.
Qed.

(** X14. [cliCtx] matters only for building the admin client: when a run
    does not call [NewAdminClient], the run with any other context returns
    the same result after the same calls. *)
Theorem newCRUDClient_context_unused (cliCtx cliCtx' : CliContext)
    (configFile : string) :
  existsb touchesAdmin (snd (newCRUDClient cliCtx configFile)) = false →
  newCRUDClient cliCtx' configFile = newCRUDClient cliCtx configFile.
Proof.
  selector_cases cliCtx configFile; intros Hnone; done.
Qed.

End SelectorMore.

Section SelectorMoreRuns.
Import Fixtures.

(** The file client that could not be built: the interface value holds the
    nil pointer of the constructor and comes with the constructor's
    error. *)
Lemma newCRUDClient_client_inv_witness :
  ∃ config,
    Stat (Collaborators := OfflineFixtures.offlineCollaborators) "ca.json"
    = None
    ∧ LoadConfiguration (Collaborators := OfflineFixtures.offlineCollaborators)
        "ca.json" = Ok config
    ∧ EnableAdmin (AuthorityConfig config) = false
    ∧ None = fst (newAdminAPIDisabledClient
                    (Collaborators := OfflineFixtures.offlineCollaborators)
                    config "ca.json")
    ∧ snd (fst (newCRUDClient (collab := OfflineFixtures.offlineCollaborators)
                  "ctx" "ca.json"))
      = snd (newAdminAPIDisabledClient
               (Collaborators := OfflineFixtures.offlineCollaborators)
               config "ca.json").
Proof.
  destruct (newCRUDClient_client_inv
              (collab := OfflineFixtures.offlineCollaborators)
              "ctx" "ca.json") as [Hfile _].
  apply (Hfile None). reflexivity.
Defined.

Lemma newCRUDClient_local_failure_witness :
  fst (fst (newCRUDClient (collab := toyCollaborators) "ctx" "locked.json"))
  = None
  ∧ ∃ e, snd (fst (newCRUDClient (collab := toyCollaborators)
                     "ctx" "locked.json")) = Some e.
Proof.
  apply (newCRUDClient_local_failure (collab := toyCollaborators)
           "ctx" "locked.json").
  reflexivity.
Defined.

Lemma newCRUDClient_context_unused_witness :
  newCRUDClient (collab := toyCollaborators) "other" "ca.json"
  = newCRUDClient (collab := toyCollaborators) "ctx" "ca.json".
Proof.
  apply (newCRUDClient_context_unused (collab := toyCollaborators)
           "ctx" "other" "ca.json").
  reflexivity.
Defined.

End SelectorMoreRuns.

End ClientMore.


(** ** [parseInstanceAge] *)

Module InstanceAgeFacts.
Import InstanceAge.

Section ParseFacts.
Context {CliContext : Type} {flags : Flags CliContext}.

(** X15. [parseInstanceAge] succeeds in two ways only: with the empty
    string when [--instance-age] is not set; or, when it is set, with the
    string [ctx.String("instance-age")] itself, and this exactly when that
    string parses with [time.ParseDuration] to a duration that is not
    negative (zero included). *)
Theorem parseInstanceAge_success_iff (ctx : CliContext) (age : string) :
  parseInstanceAge ctx = (age, None)
  ↔ (IsSet ctx "instance-age" = false ∧ age = "")
    ∨ (IsSet ctx "instance-age" = true
       ∧ age = String ctx "instance-age"
       ∧ ∃ dur, ParseDuration (String ctx "instance-age") = Ok dur
                ∧ (0 ≤ dur)%Z).
Proof.
  unfold parseInstanceAge.
  destruct (IsSet ctx "instance-age"); simpl.
  - destruct (ParseDuration (String ctx "instance-age")) as [dur|err] eqn:Hp.
    + destruct (Z.ltb_spec dur 0) as [Hneg|Hpos].
      * split; [done|].
        intros [[? _]|(_ & _ & d & [= <-] & Hd)]; [done|lia].
      * split.
        -- intros [= <-]. right. split; [done|]. split; [done|]. by exists dur.
        -- intros [[? _]|(_ & -> & _)]; done.
    + split; [done|]. by intros [[? _]|(_ & _ & d & ? & _)].
  - split.
    + intros [= <-]. by left.
    + by intros [[_ ->]|[? _]].
Qed.

(** X16. When [parseInstanceAge] returns an error, the age it returns is
    empty and the flag was set; the error is the one of
    [time.ParseDuration], as it is, or, for a text that parses to a
    negative duration, the minimum-size error of the flag with the
    minimum "0s". *)
Theorem parseInstanceAge_error_inv (ctx : CliContext) (e : error) :
  snd (parseInstanceAge ctx) = Some e →
  fst (parseInstanceAge ctx) = ""
  ∧ IsSet ctx "instance-age" = true
  ∧ (ParseDuration (String ctx "instance-age") = Fail e
     ∨ ∃ dur, ParseDuration (String ctx "instance-age") = Ok dur
              ∧ (dur < 0)%Z
              ∧ e = MinSizeFlag ctx "instance-age" "0s").
Proof.
  unfold parseInstanceAge.
  destruct (IsSet ctx "instance-age"); simpl; [|done].
  destruct (ParseDuration (String ctx "instance-age")) as [dur|err] eqn:Hp.
  - destruct (Z.ltb_spec dur 0) as [Hneg|Hpos]; simpl; [|done].
    intros [= <-]. split; [done|]. split; [done|]. right. by exists dur.
  - simpl. intros [= <-]. split; [done|]. split; [done|]. by left.
Qed.

End ParseFacts.

Section ParseRuns.
Import AgeFixtures.

(** Runs on the duration flag: not set, zero, and an hour, which comes
    back in the rendering of the context. *)
Lemma parseInstanceAge_success_iff_witness :
  parseInstanceAge (flags := DurationFixtures.durationFlags) None = ("", None)
  ∧ parseInstanceAge (flags := DurationFixtures.durationFlags) (Some 0%Z)
    = ("0s", None)
  ∧ parseInstanceAge (flags := DurationFixtures.durationFlags)
      (Some 3600000000000%Z)
    = ("1h0m0s", None)
  ∧ ¬ parseInstanceAge (flags := DurationFixtures.durationFlags)
        (Some (-3600000000000)%Z)
      = ("-1h0m0s", None).
Proof.
  split; [|split; [|split]].
  - apply (parseInstanceAge_success_iff
             (flags := DurationFixtures.durationFlags) None "").
    left. split; reflexivity.
  - apply (parseInstanceAge_success_iff
             (flags := DurationFixtures.durationFlags) (Some 0%Z) "0s").
    right. split; [reflexivity|]. split; [reflexivity|].
    exists 0%Z. split; [reflexivity|lia].
  - apply (parseInstanceAge_success_iff
             (flags := DurationFixtures.durationFlags)
             (Some 3600000000000%Z) "1h0m0s").
    right. split; [reflexivity|]. split; [reflexivity|].
    exists 3600000000000%Z. split; [reflexivity|lia].
  - intros Hrun.
    apply (parseInstanceAge_success_iff
             (flags := DurationFixtures.durationFlags)
             (Some (-3600000000000)%Z) "-1h0m0s") in Hrun.
    destruct Hrun as [[Hset _]|(_ & _ & dur & Hdur & Hpos)].
    + discriminate Hset.
    + injection Hdur as <-. lia.
Defined.

Lemma parseInstanceAge_error_inv_witness :
  fst (parseInstanceAge (flags := ageFlags) (Some "-1h")) = ""
  ∧ IsSet (Flags := ageFlags) (Some "-1h") "instance-age" = true
  ∧ (ParseDuration (Flags := ageFlags)
       (String (Flags := ageFlags) (Some "-1h") "instance-age")
     = Fail (MinSizeFlag (Flags := ageFlags) (Some "-1h") "instance-age" "0s")
     ∨ ∃ dur, ParseDuration (Flags := ageFlags)
                (String (Flags := ageFlags) (Some "-1h") "instance-age")
              = Ok dur
              ∧ (dur < 0)%Z
              ∧ MinSizeFlag (Flags := ageFlags) (Some "-1h") "instance-age" "0s"
                = MinSizeFlag (Flags := ageFlags) (Some "-1h")
                    "instance-age" "0s").
Proof.
  apply (parseInstanceAge_error_inv (flags := ageFlags) (Some "-1h")
           (MinSizeFlag (Flags := ageFlags) (Some "-1h") "instance-age" "0s")).
  reflexivity.
Defined.

End ParseRuns.

End InstanceAgeFacts.
